(** * Catapillar: the token parser and the Python mapper

    A shallow embedding of [parser/parser.py] and [mapper/python_mapper.py],
    followed by the properties of the two passes.

    Python [str] values are modelled as [string] (the UTF-8 bytes of the
    text).  Every comparison the code makes is an equality or a search for
    an ASCII character or a fixed word, and UTF-8 is self-synchronising, so
    these give the same answers on bytes as on code points.  Python [int] is
    [Z].  The three builtins whose definition depends on Unicode tables or on
    the float grammar ([str.isidentifier], [float], [str.split]) are the
    fields of the class [PyBuiltins]: the theorems hold for every instance.

    The AST nodes are dicts in the code.  Program, Flow and Segment are
    records here, so the mapper's checks of their type tag always pass;
    statements are a variant with one more case for any other tag.  The
    mapper shares one [IndentContext] object among all its calls: the
    functions that use it are computations in the monad [Mapper.Gen].  The
    list stored under the args key of a Line node is the very object that
    the lowering functions receive, so a function that assigns into it
    changes the node: such functions return the content of the list after
    the call, and [map_program] returns the tree it leaves.  Each Line node
    is taken to own its list. *)

From Stdlib Require Import List String Ascii ZArith Bool Lia.
Import ListNotations.
Local Open Scope list_scope.
Local Open Scope string_scope.
Set Warnings "-register-all".

(* ================================================================== *)
(** * Python string and list primitives used by the code *)
(* ================================================================== *)

Module Py.

(** [x in xs] for a list (or tuple) of strings. *)
Definition in_list (x : string) (xs : list string) : bool :=
  existsb (String.eqb x) xs.

(** [s.endswith(suffix)]. *)
Definition endswith (s suffix : string) : bool :=
  (String.length suffix <=? String.length s)%nat &&
  String.eqb
    (substring (String.length s - String.length suffix)
               (String.length suffix) s)
    suffix.

(** [s[:-1]]. *)
Definition drop_last (s : string) : string :=
  substring 0 (String.length s - 1) s.

(** [s.rstrip(c)] for a one-character [c]: every trailing [c] is removed. *)
Fixpoint rstrip (c : ascii) (s : string) : string :=
  match s with
  | EmptyString => EmptyString
  | String a s' =>
      let r := rstrip c s' in
      if String.eqb r EmptyString && Ascii.eqb a c
      then EmptyString
      else String a r
  end.

(** [sep.join(xs)]. *)
Definition join (sep : string) (xs : list string) : string :=
  String.concat sep xs.

(** [s.replace(old, new)] scans left to right and replaces the matches that
    do not overlap.  [skip] counts the characters of a match still to be
    dropped. *)
Fixpoint replace_from (skip : nat) (old new s : string) : string :=
  match s with
  | EmptyString => EmptyString
  | String c s' =>
      match skip with
      | S k => replace_from k old new s'
      | O =>
          if prefix old s
          then new ++ replace_from (String.length old - 1) old new s'
          else String c (replace_from 0 old new s')
      end
  end.

Fixpoint intersperse_all (new s : string) : string :=
  match s with
  | EmptyString => new
  | String c s' => new ++ String c (intersperse_all new s')
  end.

Definition replace (old new s : string) : string :=
  match old with
  | EmptyString => intersperse_all new s
  | _ => replace_from 0 old new s
  end.

(** [s * n]: the empty string when [n <= 0]. *)
Fixpoint repeat_nat (s : string) (n : nat) : string :=
  match n with
  | O => EmptyString
  | S k => s ++ repeat_nat s k
  end.

Definition str_mul (s : string) (n : Z) : string :=
  repeat_nat s (Z.to_nat n).

(** [xs.index(x)]: the first position of [x]. *)
Fixpoint index (x : string) (xs : list string) : option nat :=
  match xs with
  | [] => None
  | y :: ys =>
      if String.eqb y x then Some O
      else option_map S (index x ys)
  end.

(** [xs[-1]] of a non-empty list. *)
Definition last_item (xs : list string) : string := last xs EmptyString.

(** [xs[-1] = v] on a non-empty list; the list object is updated in place,
    which the embedding shows as the new content of the list. *)
Definition set_last (xs : list string) (v : string) : list string :=
  match xs with
  | [] => []
  | _ => (removelast xs ++ [v])%list
  end.

(** Lookup in a [dict] written as its items. *)
Fixpoint dict_get (k : string) (d : list (string * string)) : option string :=
  match d with
  | [] => None
  | (k', v) :: d' => if String.eqb k' k then Some v else dict_get k d'
  end.

End Py.

(* ================================================================== *)
(** * The AST *)
(* ================================================================== *)

(** A statement node.  The code keeps nodes as dicts tagged by ["type"];
    [Other] stands for a dict whose tag is none of the four the parser
    writes, which the mapper rejects. *)
Inductive Statement : Type :=
| Line (action : string) (args : list string) (line_state : string)
| Block (name : string) (lines : list Statement) (line_state : string)
| Arrow (from to direction : string) (line_state : string)
| BLOCK_END (line_state : string)
| Other (stmt_type : string).

Record Segment : Type := mkSegment { seg_lines : list Statement }.
Record Flow : Type := mkFlow { segments : list Segment }.
Record Program : Type := mkProgram { flows : list Flow }.

(** A token of the external tokenizer. *)
Record Token : Type := mkToken {
  raw_action : string;
  raw_args : list string;
  tok_line_state : string
}.

(* ================================================================== *)
(** * parser/parser.py *)
(* ================================================================== *)

Module Parser.

Inductive ParseError : Type := ParseErr (msg : string).

Definition ACTION_IDS : list (string * list string) :=
  [ ("PRINT", ["print"; "印"]);
    ("SET", ["set"; "置"]);
    ("CALL", ["call"; "调"]);
    ("DEF", ["def"; "定"]);
    ("RETURN", ["return"; "回"]);
    ("IF", ["if"; "若"]);
    ("ELIF", ["elif"; "又若"]);
    ("ELSE", ["else"; "否则"]);
    ("WHILE", ["while"; "当"]);
    ("FOR", ["for"; "扭扭"]);
    ("BREAK", ["break"; "断"]);
    ("CONTINUE", ["continue"; "续"]);
    ("TRY", ["try"; "试"]);
    ("EXCEPT", ["except"; "捕"]);
    ("FINALLY", ["finally"; "终于"]);
    ("PASS", ["pass"; "空"]);
    ("ADD", ["add"; "加"]);
    ("SUB", ["sub"; "减"]);
    ("MUL", ["mul"; "乘"]);
    ("DIV", ["div"; "除"]) ].

Definition STRUCT_IDS : list (string * list string) :=
  [ ("BLOCK_END", ["end"; "结束"; "完了"; "终"]) ].

(** [{word: id for id, words in ids.items() for word in words}] *)
Definition build_lookup (ids : list (string * list string))
  : list (string * string) :=
  flat_map (fun '(id, words) => map (fun word => (word, id)) words) ids.

Definition ACTION_LOOKUP : list (string * string) := build_lookup ACTION_IDS.
Definition STRUCT_LOOKUP : list (string * string) := build_lookup STRUCT_IDS.

Definition LINE_STATES : list string := ["~"; ">"; "<"; "!"; "?"].

(** The accumulators of [parse_tokens]: the segments already pushed onto
    [current_flow] and the lines of [current_segment]. *)
Record PState : Type := mkPState {
  flow_segments : list Segment;
  segment_lines : list Statement
}.

Definition initial : PState := mkPState [] [].

(** [current_segment["lines"].append(node)] *)
Definition append_line (st : PState) (node : Statement) : PState :=
  mkPState (flow_segments st) ((segment_lines st ++ [node])%list).

(** [current_flow["segments"].append(current_segment)] followed by a fresh
    [current_segment]. *)
Definition close_segment (st : PState) : PState :=
  mkPState ((flow_segments st ++ [mkSegment (segment_lines st)])%list) [].

(** The part of the loop body after the structural check. *)
Definition parse_token_unstructured (st : PState) (token : Token)
  : ParseError + PState :=
  let raw_action := raw_action token in
  let raw_args := raw_args token in
  let line_state := tok_line_state token in
  if negb (Py.in_list line_state LINE_STATES) then
    inl (ParseErr ("Invalid line_state: " ++ line_state))
  else
    let arrow_type :=
      if Py.in_list "->" raw_args then Some "->"
      else if Py.in_list "<-" raw_args then Some "<-"
      else None in
    if Py.endswith raw_action ":" then
      let block_name := Py.drop_last raw_action in
      if Py.in_list block_name ["否则"; "else"] then
        inr (append_line st (Line "ELSE" [] line_state))
      else if Py.in_list block_name ["试"; "try"] then
        inr (append_line st (Line "TRY" [] line_state))
      else if Py.in_list block_name ["终于"; "finally"] then
        inr (append_line st (Line "FINALLY" [] line_state))
      else
        inr (append_line st (Block block_name [] line_state))
    else
      let appended :=
        match arrow_type with
        | Some arrow =>
            match Py.index arrow raw_args with
            | None => inl (ParseErr "Arrow missing target")
            | Some idx =>
                if (List.length raw_args <=? idx + 1)%nat then
                  inl (ParseErr "Arrow missing target")
                else
                  let left := raw_action in
                  let right := nth (idx + 1) raw_args EmptyString in
                  if String.eqb arrow "->" then
                    inr (append_line st (Arrow left right arrow line_state))
                  else
                    inr (append_line st (Arrow right left arrow line_state))
            end
        | None =>
            match Py.dict_get raw_action ACTION_LOOKUP with
            | None => inl (ParseErr ("Unknown action: " ++ raw_action))
            | Some action_id =>
                inr (append_line st (Line action_id raw_args line_state))
            end
        end in
      match appended with
      | inl e => inl e
      | inr st' =>
          inr (if String.eqb line_state ">" then close_segment st' else st')
      end.

(** One iteration of [for token in tokens]. *)
Definition parse_token (st : PState) (token : Token) : ParseError + PState :=
  match Py.dict_get (raw_action token) STRUCT_LOOKUP with
  | Some struct_id =>
      if String.eqb struct_id "BLOCK_END" then
        inr (append_line st (BLOCK_END (tok_line_state token)))
      else parse_token_unstructured st token
  | None => parse_token_unstructured st token
  end.

(** The loop; the first error ends it. *)
Fixpoint parse_loop (st : PState) (tokens : list Token)
  : ParseError + PState :=
  match tokens with
  | [] => inr st
  | token :: rest =>
      match parse_token st token with
      | inl e => inl e
      | inr st' => parse_loop st' rest
      end
  end.

(** The two flushes after the loop. *)
Definition finish (st : PState) : Program :=
  let segs :=
    match segment_lines st with
    | [] => flow_segments st
    | _ => (flow_segments st ++ [mkSegment (segment_lines st)])%list
    end in
  match segs with
  | [] => mkProgram []
  | _ => mkProgram [mkFlow segs]
  end.

Definition parse_tokens (tokens : list Token) : ParseError + Program :=
  match parse_loop initial tokens with
  | inl e => inl e
  | inr st => inr (finish st)
  end.

End Parser.

(* ================================================================== *)
(** * mapper/python_mapper.py *)
(* ================================================================== *)

(** The builtins of the Python runtime that the mapper calls and whose
    definition lies outside the repository. *)
Class PyBuiltins : Type := {
  (** [name.isidentifier()] *)
  str_isidentifier : string -> bool;
  (** whether [float(symbol)] returns rather than raising [ValueError] *)
  float_accepts : string -> bool;
  (** [s.split()] *)
  str_split : string -> list string
}.

Module Mapper.

Inductive MapError : Type := MapErr (msg : string).

(** The result of a call that may raise [MapError]. *)
Inductive Outcome (A : Type) : Type :=
| Return (a : A)
| Raise (e : MapError).
Arguments Return {A} a.
Arguments Raise {A} e.

(** [IndentContext]: [indent_str] is the constant of [__init__]. *)
Record IndentContext : Type := mkCtx {
  level : Z;
  last_was_block_end : bool
}.

Definition indent_str : string := "    ".

(** [IndentContext()] *)
Definition new_context : IndentContext := mkCtx 0 false.

(** Ghost trace: the calls of the two methods that change [level], in
    order, each with the level it leaves. *)
Inductive TrackerCall : Type :=
| CallIndent (level_after : Z)
| CallDedent (level_after : Z).

(** A computation that shares one [IndentContext] and may raise: it yields
    the calls it made, the context it leaves (also when it raises) and its
    outcome. *)
Definition Gen (A : Type) : Type :=
  IndentContext -> list TrackerCall * IndentContext * Outcome A.

Definition ret {A} (a : A) : Gen A := fun ctx => ([], ctx, Return a).

Definition raise {A} (msg : string) : Gen A :=
  fun ctx => ([], ctx, Raise (MapErr msg)).

Definition bind {A B} (m : Gen A) (k : A -> Gen B) : Gen B :=
  fun ctx =>
    match m ctx with
    | (calls1, ctx1, Return a) =>
        match k a ctx1 with
        | (calls2, ctx2, o) => ((calls1 ++ calls2)%list, ctx2, o)
        end
    | (calls1, ctx1, Raise e) => (calls1, ctx1, Raise e)
    end.

Notation "x <- m ;; k" := (bind m (fun x => k))
  (at level 61, m at next level, right associativity).
Notation "' pat <- m ;; k" := (bind m (fun x => match x with pat => k end))
  (at level 61, pat pattern, m at next level, right associativity).
Notation "m ;;; k" := (bind m (fun _ => k))
  (at level 61, right associativity).

(** A call of a function that takes no context. *)
Definition lift {A} (o : Outcome A) : Gen A := fun ctx => ([], ctx, o).

Definition calls_of {A} (r : list TrackerCall * IndentContext * Outcome A)
  : list TrackerCall := fst (fst r).
Definition ctx_of {A} (r : list TrackerCall * IndentContext * Outcome A)
  : IndentContext := snd (fst r).
Definition outcome_of {A} (r : list TrackerCall * IndentContext * Outcome A)
  : Outcome A := snd r.

(** ** IndentContext methods *)

Module Ctx.

Definition indent : Gen unit :=
  fun ctx =>
    let ctx' := mkCtx (level ctx + 1) (last_was_block_end ctx) in
    ([CallIndent (level ctx')], ctx', Return tt).

(** The effect of [dedent] on the context. *)
Definition dedent_ctx (ctx : IndentContext) : IndentContext :=
  if (level ctx >? 0)%Z
  then mkCtx (level ctx - 1) (last_was_block_end ctx)
  else ctx.

Definition dedent : Gen unit :=
  fun ctx =>
    let ctx' := dedent_ctx ctx in
    ([CallDedent (level ctx')], ctx', Return tt).

Definition get_indent : Gen string :=
  fun ctx => ([], ctx, Return (Py.str_mul indent_str (level ctx))).

(** [ctx.last_was_block_end = b] *)
Definition set_last_was_block_end (b : bool) : Gen unit :=
  fun ctx => ([], mkCtx (level ctx) b, Return tt).

(** [ctx.last_was_block_end] *)
Definition get_last_was_block_end : Gen bool :=
  fun ctx => ([], ctx, Return (last_was_block_end ctx)).

End Ctx.

Section WithBuiltins.
Context {builtins : PyBuiltins}.

(** ** Value lowering *)

Definition is_valid_identifier (name : string) : bool := str_isidentifier name.

Definition is_numeric (symbol : string) : bool :=
  if String.eqb symbol "" then false else float_accepts symbol.

(** The one-character string holding a double quote. *)
Definition dquote : string := String (ascii_of_nat 34) EmptyString.

(** [f'"{symbol}"'] *)
Definition quoted (symbol : string) : string := dquote ++ symbol ++ dquote.

Definition to_py_value (symbol : string) : string :=
  if String.eqb symbol "" then quoted ""
  else if Py.in_list symbol ["True"; "真"] then "True"
  else if Py.in_list symbol ["False"; "假"] then "False"
  else if String.eqb symbol "None" then "None"
  else if is_numeric symbol then symbol
  else if Py.in_list symbol ["input"; "float"; "int"; "str"] then symbol
  else if is_valid_identifier symbol then symbol
  else quoted symbol.

Definition to_py_value_for_condition (symbol : string) : string :=
  if String.eqb symbol "" then quoted ""
  else if Py.in_list symbol ["True"; "真"] then "True"
  else if Py.in_list symbol ["False"; "假"] then "False"
  else if String.eqb symbol "None" then "None"
  else if is_numeric symbol then symbol
  else if Py.in_list symbol ["=="; "!="; ">"; "<"; ">="; "<="; "or"; "and"]
  then symbol
  else if is_valid_identifier symbol then
    if Py.in_list symbol ["quit"; "exit"] then quoted symbol else symbol
  else quoted symbol.

(** [build_condition(args)].  The first statement assigns to [args[-1]]:
    [args] is the list object stored in the Line node, so the call yields
    the content of that list afterwards together with the condition. *)
Definition build_condition (args : list string) : list string * string :=
  let args :=
    match args with
    | [] => args
    | _ =>
        if Py.endswith (Py.last_item args) ":"
        then Py.set_last args (Py.rstrip ":" (Py.last_item args))
        else args
    end in
  if (2 <=? List.length args)%nat
     && is_valid_identifier (nth 0 args "")
     && negb (Py.in_list "是" args)
     && negb (Py.in_list "或" args)
  then
    let func := nth 0 args "" in
    let call_args := map to_py_value (skipn 1 args) in
    (args, func ++ "(" ++ Py.join ", " call_args ++ ")")
  else
    let condition_str := Py.join " " args in
    let condition_str := Py.replace " 是 " " == " condition_str in
    let condition_str := Py.replace " 或 " " or " condition_str in
    let condition_str := Py.replace " 且 " " and " condition_str in
    let condition_str := Py.replace " 不是 " " != " condition_str in
    let parts := str_split condition_str in
    let result_parts :=
      map (fun part =>
             if Py.in_list part ["=="; "!="; "or"; "and"; ">"; "<"; ">="; "<="]
             then part
             else to_py_value_for_condition part)
          parts in
    (args, Py.join " " result_parts).

(** ** Simple statements *)

Definition map_return (args : list string) : string :=
  match args with
  | [] => "return"
  | _ => "return " ++ to_py_value (Py.join " " args)
  end.

Definition map_print (args : list string) : string :=
  match args with
  | [] => "print()"
  | _ =>
      if (List.length args =? 1)%nat && is_valid_identifier (nth 0 args "")
      then "print(" ++ nth 0 args "" ++ ")"
      else
        let literal := Py.join " " args in
        let escaped :=
          Py.replace dquote ("\" ++ dquote) (Py.replace "\" "\\" literal) in
        "print(" ++ dquote ++ escaped ++ dquote ++ ")"
  end.

Definition map_set (args : list string) : Outcome string :=
  if (List.length args <? 2)%nat then
    Raise (MapErr "SET expects at least 2 arguments: variable value")
  else
    let name := nth 0 args "" in
    if negb (is_valid_identifier name) then
      Raise (MapErr ("Invalid variable name: " ++ name))
    else
      let value : Outcome string :=
        if (List.length args =? 2)%nat then
          let value_arg := nth 1 args "" in
          if is_valid_identifier value_arg
             && Py.in_list value_arg
                  ["读数"; "读运算符"; "input"; "float"; "int"; "str"]
          then Return (value_arg ++ "()")
          else Return (to_py_value value_arg)
        else if (List.length args =? 3)%nat then
          let func_or_op := nth 1 args "" in
          let third_arg := nth 2 args "" in
          if Py.in_list func_or_op ["加"; "add"] then
            Raise (MapErr "ADD in SET expects 4 args: 置 result 加 left right")
          else if Py.in_list func_or_op ["减"; "sub"] then
            Raise (MapErr "SUB in SET expects 4 args: 置 result 减 left right")
          else if Py.in_list func_or_op ["乘"; "mul"] then
            Raise (MapErr "MUL in SET expects 4 args: 置 result 乘 left right")
          else if Py.in_list func_or_op ["除"; "div"] then
            Raise (MapErr "DIV in SET expects 4 args: 置 result 除 left right")
          else
            Return (func_or_op ++ "(" ++ to_py_value third_arg ++ ")")
        else
          let operation := nth 1 args "" in
          let binary (symbol message : string) : Outcome string :=
            if negb (List.length args =? 4)%nat then Raise (MapErr message)
            else
              let left := to_py_value (nth 2 args "") in
              let right := to_py_value (nth 3 args "") in
              Return (left ++ " " ++ symbol ++ " " ++ right) in
          if Py.in_list operation ["加"; "add"] then
            binary "+" "ADD in SET expects: 置 result 加 left right"
          else if Py.in_list operation ["减"; "sub"] then
            binary "-" "SUB in SET expects: 置 result 减 left right"
          else if Py.in_list operation ["乘"; "mul"] then
            binary "*" "MUL in SET expects: 置 result 乘 left right"
          else if Py.in_list operation ["除"; "div"] then
            binary "/" "DIV in SET expects: 置 result 除 left right"
          else
            let func := nth 1 args "" in
            let func_args := map to_py_value (skipn 2 args) in
            match func_args with
            | [] => Return (func ++ "()")
            | _ => Return (func ++ "(" ++ Py.join ", " func_args ++ ")")
            end
      in
      match value with
      | Return value => Return (name ++ " = " ++ value)
      | Raise e => Raise e
      end.

Definition map_call (args : list string) : Outcome string :=
  match args with
  | [] => Raise (MapErr "CALL expects at least a function name")
  | func :: rest =>
      let call_args := map to_py_value rest in
      Return (func ++ "(" ++ Py.join ", " call_args ++ ")")
  end.

Definition map_arithmetic (args : list string) (operator : string)
  : Outcome string :=
  match args with
  | [result; left_arg; right_arg] =>
      if negb (is_valid_identifier result) then
        Raise (MapErr ("Invalid result variable: " ++ result))
      else
        let py_left := to_py_value left_arg in
        let py_right := to_py_value right_arg in
        Return (result ++ " = " ++ py_left ++ " " ++ operator ++ " " ++ py_right)
  | _ =>
      Raise (MapErr "Arithmetic operation expects 3 arguments: result left right")
  end.

(** ** Block headers

    Each returns the lines it emits.  [map_if], [map_elif] and [map_while]
    hand [args] to [build_condition] and so also return the content of that
    list after the call. *)

Definition map_def (args : list string) : Gen (list string) :=
  match args with
  | [] => raise "DEF expects at least a function name"
  | _ =>
      indent <- Ctx.get_indent ;;
      let func_name := Py.rstrip ":" (nth 0 args "") in
      let param_str :=
        if (List.length args =? 1)%nat then ""
        else Py.join ", " (map (Py.rstrip ":") (skipn 1 args)) in
      Ctx.indent ;;;
      ret [indent ++ "def " ++ func_name ++ "(" ++ param_str ++ "):"]
  end.

Definition map_if (args : list string) : Gen (list string * list string) :=
  match args with
  | [] => raise "IF expects a condition"
  | _ =>
      indent <- Ctx.get_indent ;;
      let '(args, condition) := build_condition args in
      Ctx.indent ;;;
      ret (args, [indent ++ "if " ++ condition ++ ":"])
  end.

Definition map_elif (args : list string) : Gen (list string * list string) :=
  match args with
  | [] => raise "ELIF expects a condition"
  | _ =>
      indent <- Ctx.get_indent ;;
      let '(args, condition) := build_condition args in
      Ctx.indent ;;;
      ret (args, [indent ++ "elif " ++ condition ++ ":"])
  end.

Definition map_else (args : list string) : Gen (list string) :=
  indent <- Ctx.get_indent ;;
  Ctx.indent ;;;
  ret [indent ++ "else:"].

Definition map_while (args : list string) : Gen (list string * list string) :=
  match args with
  | [] => raise "WHILE expects a condition"
  | _ =>
      indent <- Ctx.get_indent ;;
      let '(args, condition) := build_condition args in
      Ctx.indent ;;;
      ret (args, [indent ++ "while " ++ condition ++ ":"])
  end.

Definition map_for (args : list string) : Gen (list string) :=
  if (List.length args <? 3)%nat then
    raise "FOR expects: variable in iterable"
  else
    indent <- Ctx.get_indent ;;
    let var := nth 0 args "" in
    let iterable :=
      if String.eqb (nth 1 args "") "in"
      then Py.rstrip ":" (Py.join " " (skipn 2 args))
      else Py.rstrip ":" (Py.join " " (skipn 1 args)) in
    Ctx.indent ;;;
    ret [indent ++ "for " ++ var ++ " in " ++ iterable ++ ":"].

Definition map_try (args : list string) : Gen (list string) :=
  indent <- Ctx.get_indent ;;
  Ctx.indent ;;;
  ret [indent ++ "try:"].

Definition exception_map : list (string * string) :=
  [ ("零除错误", "ZeroDivisionError"); ("其他错误", "Exception") ].

Definition map_except (args : list string) : Gen (list string) :=
  indent <- Ctx.get_indent ;;
  match args with
  | _ :: _ =>
      let exception := Py.rstrip ":" (nth 0 args "") in
      let py_exception :=
        match Py.dict_get exception exception_map with
        | Some e => e
        | None => exception
        end in
      Ctx.indent ;;;
      ret [indent ++ "except " ++ py_exception ++ ":"]
  | [] =>
      Ctx.indent ;;;
      ret [indent ++ "except:"]
  end.

Definition map_finally (args : list string) : Gen (list string) :=
  indent <- Ctx.get_indent ;;
  Ctx.indent ;;;
  ret [indent ++ "finally:"].

(** ** Dispatch *)

(** A callee that leaves the list object [args] as it found it. *)
Definition keeping {A} (args : list string) (m : Gen A)
  : Gen (list string * A) :=
  r <- m ;; ret (args, r).

(** [map_line(line, ctx)] for a Line node with this action and this args
    list (the check that the node is a Line always passes here); returns
    the content of the args list afterwards and the lines. *)
Definition map_line (action : string) (args : list string)
  : Gen (list string * list string) :=
  indent <- Ctx.get_indent ;;
  if String.eqb action "DEF" then keeping args (map_def args)
  else if String.eqb action "IF" then map_if args
  else if String.eqb action "ELIF" then map_elif args
  else if String.eqb action "ELSE" then keeping args (map_else args)
  else if String.eqb action "WHILE" then map_while args
  else if String.eqb action "FOR" then keeping args (map_for args)
  else if String.eqb action "TRY" then keeping args (map_try args)
  else if String.eqb action "EXCEPT" then keeping args (map_except args)
  else if String.eqb action "FINALLY" then keeping args (map_finally args)
  else if String.eqb action "RETURN" then
    ret (args, [indent ++ map_return args])
  else if String.eqb action "BREAK" then ret (args, [indent ++ "break"])
  else if String.eqb action "CONTINUE" then ret (args, [indent ++ "continue"])
  else if String.eqb action "PASS" then ret (args, [indent ++ "pass"])
  else if String.eqb action "PRINT" then
    ret (args, [indent ++ map_print args])
  else if String.eqb action "SET" then
    text <- lift (map_set args) ;; ret (args, [indent ++ text])
  else if String.eqb action "CALL" then
    text <- lift (map_call args) ;; ret (args, [indent ++ text])
  else if String.eqb action "ADD" then
    text <- lift (map_arithmetic args "+") ;; ret (args, [indent ++ text])
  else if String.eqb action "SUB" then
    text <- lift (map_arithmetic args "-") ;; ret (args, [indent ++ text])
  else if String.eqb action "MUL" then
    text <- lift (map_arithmetic args "*") ;; ret (args, [indent ++ text])
  else if String.eqb action "DIV" then
    text <- lift (map_arithmetic args "/") ;; ret (args, [indent ++ text])
  else raise ("Unhandled ActionID: " ++ action).

Definition map_line_with_block_end_tracking (action : string)
  (args : list string) : Gen (list string * list string) :=
  last_was_block_end <- Ctx.get_last_was_block_end ;;
  (if Py.in_list action ["ELIF"; "ELSE"; "EXCEPT"; "FINALLY"]
      && negb last_was_block_end
   then Ctx.dedent
   else ret tt) ;;;
  map_line action args.

Definition map_block (block : Statement) : Gen (list string) := ret [].

(** [map_statement(stmt, ctx)]: the node after the call and the lines. *)
Definition map_statement (stmt : Statement) : Gen (Statement * list string) :=
  match stmt with
  | Line action args line_state =>
      '(args, result) <- map_line_with_block_end_tracking action args ;;
      Ctx.set_last_was_block_end false ;;;
      ret (Line action args line_state, result)
  | Block _ _ _ =>
      Ctx.set_last_was_block_end false ;;;
      result <- map_block stmt ;;
      ret (stmt, result)
  | BLOCK_END _ =>
      Ctx.dedent ;;;
      Ctx.set_last_was_block_end true ;;;
      ret (stmt, [])
  | Arrow _ _ _ _ => ret (stmt, [])
  | Other stmt_type => raise ("Unknown statement type: " ++ stmt_type)
  end.

(** The loop of [map_segment] over [segment["lines"]]. *)
Fixpoint map_lines (stmts : list Statement)
  : Gen (list Statement * list string) :=
  match stmts with
  | [] => ret ([], [])
  | line :: rest =>
      '(line, result) <- map_statement line ;;
      '(rest, lines) <- map_lines rest ;;
      ret (line :: rest, (result ++ lines)%list)
  end.

Definition map_segment (segment : Segment) : Gen (Segment * list string) :=
  '(stmts, lines) <- map_lines (seg_lines segment) ;;
  ret (mkSegment stmts, lines).

(** The loop of [map_flow] over [flow["segments"]]. *)
Fixpoint map_segments (segs : list Segment)
  : Gen (list Segment * list string) :=
  match segs with
  | [] => ret ([], [])
  | segment :: rest =>
      '(segment, result) <- map_segment segment ;;
      '(rest, lines) <- map_segments rest ;;
      ret (segment :: rest, (result ++ lines)%list)
  end.

Definition map_flow (flow : Flow) : Gen (Flow * list string) :=
  '(segs, lines) <- map_segments (segments flow) ;;
  ret (mkFlow segs, lines).

(** The loop of [map_program] over [program["flows"]]. *)
Fixpoint map_flows (fls : list Flow) : Gen (list Flow * list string) :=
  match fls with
  | [] => ret ([], [])
  | flow :: rest =>
      '(flow, result) <- map_flow flow ;;
      '(rest, lines) <- map_flows rest ;;
      ret (flow :: rest, (result ++ lines)%list)
  end.

Definition newline : string := String (ascii_of_nat 10) EmptyString.

(** [map_program(program)] run on a fresh [IndentContext]. *)
Definition map_program_run (program : Program)
  : list TrackerCall * IndentContext * Outcome (Program * string) :=
  ('(fls, lines) <- map_flows (flows program) ;;
   ret (mkProgram fls, Py.join newline lines)) new_context.

(** What the caller of [map_program] observes: the source text, and the
    Program tree as the call left it. *)
Definition map_program (program : Program) : Outcome (Program * string) :=
  outcome_of (map_program_run program).

End WithBuiltins.
End Mapper.

(* ================================================================== *)
(** * A reference instance of the builtins *)
(* ================================================================== *)

(** Used to run the mapper on concrete programs.  It is exact on ASCII
    text: identifiers are a letter or underscore followed by letters, digits
    and underscores; it takes every non-ASCII byte for a letter, which is
    right for the CJK words of the lexicon.  [float] is restricted to signed
    decimal literals, [split] to the ASCII white space. *)
Module Reference.

Definition is_letter (c : ascii) : bool :=
  let n := nat_of_ascii c in
  ((65 <=? n) && (n <=? 90) || (97 <=? n) && (n <=? 122)
   || (n =? 95) || (128 <=? n))%nat.

Definition is_digit (c : ascii) : bool :=
  let n := nat_of_ascii c in ((48 <=? n) && (n <=? 57))%nat.

Definition is_space (c : ascii) : bool :=
  let n := nat_of_ascii c in ((n =? 32) || (9 <=? n) && (n <=? 13))%nat.

Fixpoint all_chars (p : ascii -> bool) (s : string) : bool :=
  match s with
  | EmptyString => true
  | String c s' => p c && all_chars p s'
  end.

Definition isidentifier (s : string) : bool :=
  match s with
  | EmptyString => false
  | String c s' =>
      is_letter c && all_chars (fun a => is_letter a || is_digit a) s'
  end.

(** Digits with at most one point, [seen] telling whether a digit or a
    point was met. *)
Fixpoint decimal_body (digits point : bool) (s : string) : bool :=
  match s with
  | EmptyString => digits
  | String c s' =>
      if is_digit c then decimal_body true point s'
      else if Ascii.eqb c "." && negb point then decimal_body digits true s'
      else false
  end.

Definition float_accepts (s : string) : bool :=
  match s with
  | String c s' =>
      if Ascii.eqb c "-" || Ascii.eqb c "+"
      then decimal_body false false s'
      else decimal_body false false s
  | EmptyString => false
  end.

Fixpoint split_from (word : string) (s : string) : list string :=
  match s with
  | EmptyString => match word with EmptyString => [] | _ => [word] end
  | String c s' =>
      if is_space c then
        match word with
        | EmptyString => split_from EmptyString s'
        | _ => word :: split_from EmptyString s'
        end
      else split_from (word ++ String c EmptyString) s'
  end.

Definition split (s : string) : list string := split_from EmptyString s.

Definition builtins : PyBuiltins :=
  Build_PyBuiltins isidentifier float_accepts split.

End Reference.

(* ================================================================== *)
(** * Properties of the parser *)
(* ================================================================== *)

Section ParserProperties.
Import Parser.

(** Every statement built so far, in order. *)
Definition statements_of (st : PState) : list Statement :=
  (flat_map seg_lines (flow_segments st) ++ segment_lines st)%list.

(** Every statement of a Program, in order. *)
Definition program_statements (p : Program) : list Statement :=
  flat_map (fun flow => flat_map seg_lines (segments flow)) (flows p).

(** The token's keyword resolves through [STRUCT_LOOKUP] to [BLOCK_END]. *)
Definition is_terminator (token : Token) : bool :=
  match Py.dict_get (raw_action token) STRUCT_LOOKUP with
  | Some struct_id => String.eqb struct_id "BLOCK_END"
  | None => false
  end.

(** The step from [st] to [st'] appended [stmt] and pushed the segment. *)
Definition pushes_segment (st st' : PState) (stmt : Statement) : Prop :=
  flow_segments st' =
    (flow_segments st ++ [mkSegment (segment_lines st ++ [stmt])])%list
  /\ segment_lines st' = [].

(** The step from [st] to [st'] appended [stmt] and left the segment open. *)
Definition keeps_segment_open (st st' : PState) (stmt : Statement) : Prop :=
  flow_segments st' = flow_segments st
  /\ segment_lines st' = (segment_lines st ++ [stmt])%list.

Definition stmt_line_state (stmt : Statement) : string :=
  match stmt with
  | Line _ _ ls | Block _ _ ls | Arrow _ _ _ ls | BLOCK_END ls => ls
  | Other _ => EmptyString
  end.

Definition is_arrow_or_line (stmt : Statement) : bool :=
  match stmt with
  | Line _ _ _ | Arrow _ _ _ _ => true
  | _ => false
  end.

(** The node a colon-terminated keyword gives. *)
Definition header_node (block_name line_state : string) : Statement :=
  if Py.in_list block_name ["否则"; "else"] then Line "ELSE" [] line_state
  else if Py.in_list block_name ["试"; "try"] then Line "TRY" [] line_state
  else if Py.in_list block_name ["终于"; "finally"]
  then Line "FINALLY" [] line_state
  else Block block_name [] line_state.

(** The arrow marker the parser looks for in a token, if any. *)
Definition arrow_marker (token : Token) : option string :=
  if Py.in_list "->" (raw_args token) then Some "->"
  else if Py.in_list "<-" (raw_args token) then Some "<-"
  else None.

(** The segment-closing step at the end of the loop body. *)
Definition closing (line_state : string) (st : PState) : PState :=
  if String.eqb line_state ">" then close_segment st else st.

Lemma parse_token_terminator st token :
  is_terminator token = true ->
  parse_token st token = inr (append_line st (BLOCK_END (tok_line_state token))).
Proof.
  unfold is_terminator, parse_token.
  destruct (Py.dict_get (raw_action token) STRUCT_LOOKUP) as [sid|];
    [intros ->; reflexivity | discriminate].
Qed.

Lemma parse_token_not_terminator st token :
  is_terminator token = false ->
  parse_token st token = parse_token_unstructured st token.
Proof.
  unfold is_terminator, parse_token.
  destruct (Py.dict_get (raw_action token) STRUCT_LOOKUP) as [sid|];
    [intros ->; reflexivity | reflexivity].
Qed.

Lemma unstructured_invalid st token :
  Py.in_list (tok_line_state token) LINE_STATES = false ->
  parse_token_unstructured st token =
    inl (ParseErr ("Invalid line_state: " ++ tok_line_state token)).
Proof.
  intros H. unfold parse_token_unstructured. cbv zeta. rewrite H. reflexivity.
Qed.

Lemma unstructured_header st token :
  Py.in_list (tok_line_state token) LINE_STATES = true ->
  Py.endswith (raw_action token) ":" = true ->
  parse_token_unstructured st token =
    inr (append_line st (header_node (Py.drop_last (raw_action token))
                                     (tok_line_state token))).
Proof.
  intros Hv Hc. unfold parse_token_unstructured, header_node. cbv zeta.
  rewrite Hv, Hc. cbn [negb].
  repeat match goal with
         | |- context [if ?b then _ else _] => destruct b
         end; reflexivity.
Qed.

Lemma index_of_member x xs :
  Py.in_list x xs = true ->
  exists idx, Py.index x xs = Some idx /\ (idx < List.length xs)%nat.
Proof.
  unfold Py.in_list.
  induction xs as [|y ys IH]; cbn [existsb Py.index]; [discriminate|].
  rewrite (String.eqb_sym x y).
  destruct (String.eqb y x).
  - intros _. exists O. split; [reflexivity | cbn; lia].
  - cbn [orb]. intros H. destruct (IH H) as (idx & -> & Hlt).
    exists (S idx). split; [reflexivity | cbn; lia].
Qed.

(** What the arrow branch gives for the marker [arrow] found at [idx]. *)
Definition arrow_result (st : PState) (token : Token) (arrow : string)
  (idx : nat) : ParseError + PState :=
  if (List.length (raw_args token) <=? idx + 1)%nat then
    inl (ParseErr "Arrow missing target")
  else
    let target := nth (idx + 1) (raw_args token) EmptyString in
    inr (closing (tok_line_state token)
           (append_line st
              (if String.eqb arrow "->"
               then Arrow (raw_action token) target arrow (tok_line_state token)
               else Arrow target (raw_action token) arrow
                          (tok_line_state token)))).

Lemma unstructured_arrow st token arrow :
  Py.in_list (tok_line_state token) LINE_STATES = true ->
  Py.endswith (raw_action token) ":" = false ->
  arrow_marker token = Some arrow ->
  exists idx, Py.index arrow (raw_args token) = Some idx
              /\ parse_token_unstructured st token
                 = arrow_result st token arrow idx.
Proof.
  intros Hv Hc Ha.
  assert (Hin : Py.in_list arrow (raw_args token) = true).
  { unfold arrow_marker in Ha.
    destruct (Py.in_list "->" (raw_args token)) eqn:E1;
      [injection Ha as <-; exact E1|].
    destruct (Py.in_list "<-" (raw_args token)) eqn:E2;
      [injection Ha as <-; exact E2 | discriminate]. }
  destruct (index_of_member _ _ Hin) as (idx & Hidx & _).
  exists idx. split; [exact Hidx|].
  unfold parse_token_unstructured, arrow_result, closing. cbv zeta.
  fold (arrow_marker token).
  rewrite Hv, Hc, Ha, Hidx. cbn [negb].
  destruct (List.length (raw_args token) <=? idx + 1)%nat; [reflexivity|].
  destruct (String.eqb arrow "->"); reflexivity.
Qed.

Lemma unstructured_action st token :
  Py.in_list (tok_line_state token) LINE_STATES = true ->
  Py.endswith (raw_action token) ":" = false ->
  arrow_marker token = None ->
  parse_token_unstructured st token =
    match Py.dict_get (raw_action token) ACTION_LOOKUP with
    | None => inl (ParseErr ("Unknown action: " ++ raw_action token))
    | Some action_id =>
        inr (closing (tok_line_state token)
               (append_line st
                  (Line action_id (raw_args token) (tok_line_state token))))
    end.
Proof.
  intros Hv Hc Ha.
  unfold parse_token_unstructured, closing. cbv zeta.
  fold (arrow_marker token).
  rewrite Hv, Hc, Ha. cbn [negb].
  destruct (Py.dict_get (raw_action token) ACTION_LOOKUP); reflexivity.
Qed.

Lemma is_terminator_words token :
  is_terminator token
  = Py.in_list (raw_action token) ["end"; "结束"; "完了"; "终"].
Proof.
  unfold is_terminator, Py.in_list.
  cbn [STRUCT_LOOKUP STRUCT_IDS build_lookup flat_map map app Py.dict_get
       existsb].
  rewrite !(String.eqb_sym (raw_action token)).
  repeat match goal with
         | |- context [String.eqb ?w (raw_action token)] =>
             destruct (String.eqb w (raw_action token))
         end; reflexivity.
Qed.

(** ** The effect of one token on the accumulators *)

Lemma statements_append st node :
  statements_of (append_line st node) = (statements_of st ++ [node])%list.
Proof. unfold statements_of, append_line. cbn. now rewrite app_assoc. Qed.

Lemma statements_close st :
  statements_of (close_segment st) = statements_of st.
Proof.
  unfold statements_of, close_segment. cbn.
  rewrite flat_map_app. cbn. now rewrite !app_nil_r.
Qed.

Lemma statements_closing ls st :
  statements_of (closing ls st) = statements_of st.
Proof.
  unfold closing. destruct (String.eqb ls ">");
    [apply statements_close | reflexivity].
Qed.

(** A successful step went through one of the two kinds of path: one that
    appends and goes on to the next token at once (terminator and
    colon-terminated keyword), or one that appends and then reaches the
    segment-closing step (arrow and action lines). *)
Lemma parse_token_effect st token st' :
  parse_token st token = inr st' ->
  exists node,
    ((is_terminator token = true
      \/ Py.endswith (raw_action token) ":" = true)
     /\ st' = append_line st node)
    \/ (is_terminator token = false
        /\ Py.endswith (raw_action token) ":" = false
        /\ is_arrow_or_line node = true
        /\ stmt_line_state node = tok_line_state token
        /\ st' = closing (tok_line_state token) (append_line st node)).
Proof.
  intros H.
  destruct (is_terminator token) eqn:Ht.
  - rewrite (parse_token_terminator _ _ Ht) in H. injection H as <-.
    eexists. left. split; [left|]; reflexivity.
  - rewrite (parse_token_not_terminator _ _ Ht) in H.
    destruct (Py.in_list (tok_line_state token) LINE_STATES) eqn:Hv;
      [|rewrite (unstructured_invalid _ _ Hv) in H; discriminate].
    destruct (Py.endswith (raw_action token) ":") eqn:Hc.
    + rewrite (unstructured_header _ _ Hv Hc) in H. injection H as <-.
      eexists. left. split; [right|]; reflexivity.
    + destruct (arrow_marker token) as [arrow|] eqn:Ha.
      * destruct (unstructured_arrow st _ _ Hv Hc Ha) as (idx & _ & E).
        rewrite E in H. unfold arrow_result in H.
        destruct (List.length (raw_args token) <=? idx + 1)%nat;
          [discriminate|].
        destruct (String.eqb arrow "->"); injection H as <-;
          eexists; right; repeat split; try reflexivity; assumption.
      * rewrite (unstructured_action _ _ Hv Hc Ha) in H.
        destruct (Py.dict_get (raw_action token) ACTION_LOOKUP);
          [|discriminate].
        injection H as <-. eexists. right.
        repeat split; try reflexivity; assumption.
Qed.

Lemma parse_token_appends st token st' :
  parse_token st token = inr st' ->
  exists node, statements_of st' = (statements_of st ++ [node])%list.
Proof.
  intros H. destruct (parse_token_effect _ _ _ H) as (node & [[_ ->]|R]).
  - exists node. apply statements_append.
  - destruct R as (_ & _ & _ & _ & ->). exists node.
    now rewrite statements_closing, statements_append.
Qed.

(** ** Segments are never empty *)

Definition segments_nonempty (segs : list Segment) : Prop :=
  Forall (fun seg => seg_lines seg <> []) segs.

Lemma parse_token_nonempty st token st' :
  parse_token st token = inr st' ->
  segments_nonempty (flow_segments st) ->
  segments_nonempty (flow_segments st').
Proof.
  intros H Inv. destruct (parse_token_effect _ _ _ H) as (node & [[_ ->]|R]).
  - exact Inv.
  - destruct R as (_ & _ & _ & _ & ->). unfold closing.
    destruct (String.eqb (tok_line_state token) ">"); [|exact Inv].
    unfold close_segment, append_line, segments_nonempty. cbn.
    apply Forall_app. split; [exact Inv|].
    constructor; [|constructor]. cbn. intros E.
    now apply app_eq_nil in E as [_ E].
Qed.

Lemma parse_loop_invariant tokens : forall st st',
  parse_loop st tokens = inr st' ->
  segments_nonempty (flow_segments st) ->
  segments_nonempty (flow_segments st')
  /\ List.length (statements_of st')
     = (List.length (statements_of st) + List.length tokens)%nat.
Proof.
  induction tokens as [|token rest IH]; intros st st' H Inv; cbn in H.
  - injection H as <-. split; [exact Inv | cbn; lia].
  - destruct (parse_token st token) as [e|st1] eqn:E; [discriminate|].
    destruct (IH _ _ H (parse_token_nonempty _ _ _ E Inv)) as [I L].
    split; [exact I|].
    destruct (parse_token_appends _ _ _ E) as (node & Hn).
    rewrite L, Hn, length_app. cbn. lia.
Qed.

Lemma finish_statements st :
  program_statements (finish st) = statements_of st.
Proof.
  unfold program_statements, finish, statements_of.
  destruct (segment_lines st) as [|x xs].
  - rewrite app_nil_r.
    destruct (flow_segments st) as [|s0 segs]; cbn [flows flat_map segments];
      [reflexivity | now rewrite app_nil_r].
  - destruct (flow_segments st ++ [mkSegment (x :: xs)])%list
      as [|s0 segs] eqn:Es.
    + now apply app_eq_nil in Es as [_ Es].
    + cbn [flows flat_map segments]. rewrite app_nil_r.
      change (flat_map seg_lines (s0 :: segs)
              = (flat_map seg_lines (flow_segments st) ++ x :: xs)%list).
      rewrite <- Es, flat_map_app. cbn. now rewrite app_nil_r.
Qed.

Lemma finish_nonempty st :
  segments_nonempty (flow_segments st) ->
  forall flow, In flow (flows (finish st)) ->
    segments flow <> [] /\ segments_nonempty (segments flow).
Proof.
  intros Inv flow. unfold finish.
  set (segs := match segment_lines st with
               | [] => flow_segments st
               | _ => (flow_segments st ++ [mkSegment (segment_lines st)])%list
               end).
  assert (Hs : segments_nonempty segs).
  { subst segs. destruct (segment_lines st) eqn:El; [exact Inv|].
    apply Forall_app. split; [exact Inv|].
    constructor; [|constructor]. cbn. discriminate. }
  destruct segs as [|s0 segs'] eqn:E; cbn; [tauto|].
  intros [<-|[]]. cbn. split; [discriminate | exact Hs].
Qed.

(** ** The claims on the parser *)

(** C9.  A token whose keyword resolves through the structural registry to
    the block terminator gives a BLOCK_END statement and the loop goes on
    with the next token, whatever the token's line-state marker is, inside
    the alphabet or not.  A token on any other path whose marker is outside
    the five-symbol alphabet raises ParseError, and the whole parse ends
    with that error. *)
Theorem terminator_bypasses_line_state_validation :
  forall st token rest,
    (is_terminator token = true ->
       parse_token st token
         = inr (append_line st (BLOCK_END (tok_line_state token)))
       /\ parse_loop st (token :: rest)
          = parse_loop (append_line st (BLOCK_END (tok_line_state token)))
                       rest)
    /\ (is_terminator token = false ->
        Py.in_list (tok_line_state token) LINE_STATES = false ->
        parse_token st token
          = inl (ParseErr ("Invalid line_state: " ++ tok_line_state token))
        /\ parse_loop st (token :: rest)
           = inl (ParseErr ("Invalid line_state: " ++ tok_line_state token))).
Proof.
  intros st token rest. split.
  - intros Ht. pose proof (parse_token_terminator st _ Ht) as E.
    split; [exact E|]. cbn [parse_loop]. now rewrite E.
  - intros Ht Hv.
    assert (E : parse_token st token
                = inl (ParseErr ("Invalid line_state: "
                                 ++ tok_line_state token))).
    { rewrite (parse_token_not_terminator _ _ Ht).
      now apply unstructured_invalid. }
    split; [exact E|]. cbn [parse_loop]. now rewrite E.
Qed.

Lemma terminator_bypasses_line_state_validation_witness :
  Parser.parse_tokens [mkToken "终" [] "zz"; mkToken "print" ["x"] "~"]
    = inr (mkProgram [mkFlow [mkSegment
             [BLOCK_END "zz"; Line "PRINT" ["x"] "~"]]])
  /\ parse_loop initial [mkToken "print" ["x"] "zz"; mkToken "终" [] "~"]
     = inl (ParseErr "Invalid line_state: zz").
Proof.
  split.
  - unfold parse_tokens.
    rewrite (proj2 (proj1 (terminator_bypasses_line_state_validation
                             initial (mkToken "终" [] "zz")
                             [mkToken "print" ["x"] "~"]) eq_refl)).
    reflexivity.
  - exact (proj2 (proj2 (terminator_bypasses_line_state_validation
                           initial (mkToken "print" ["x"] "zz")
                           [mkToken "终" [] "~"]) eq_refl eq_refl)).
Defined.

(** C10.  In the Program that parse_tokens returns, every Segment of every
    Flow holds at least one statement and every Flow holds at least one
    Segment; the Program holds exactly the statements produced, one per
    token; and it holds a Flow if and only if at least one statement was
    produced. *)
Theorem parsed_segments_and_flows_nonempty :
  forall tokens program,
    parse_tokens tokens = inr program ->
    (forall flow seg,
        In flow (flows program) -> In seg (segments flow) ->
        seg_lines seg <> [])
    /\ (forall flow, In flow (flows program) -> segments flow <> [])
    /\ (exists st, parse_loop initial tokens = inr st
                   /\ program_statements program = statements_of st)
    /\ List.length (program_statements program) = List.length tokens
    /\ (flows program <> [] <-> program_statements program <> []).
Proof.
  intros tokens program H. unfold parse_tokens in H.
  destruct (parse_loop initial tokens) as [e|st] eqn:E; [discriminate|].
  injection H as <-.
  assert (I0 : segments_nonempty (flow_segments initial)) by constructor.
  destruct (parse_loop_invariant _ _ _ E I0) as [Inv Len].
  pose proof (finish_nonempty _ Inv) as Hf.
  repeat split.
  - intros flow seg Hfl Hseg. destruct (Hf _ Hfl) as [_ Hne].
    unfold segments_nonempty in Hne. rewrite Forall_forall in Hne.
    now apply Hne.
  - intros flow Hfl. now destruct (Hf _ Hfl).
  - exists st. split; [reflexivity | apply finish_statements].
  - rewrite finish_statements, Len. reflexivity.
  - intros Hne Hs. apply Hne.
    destruct (flows (finish st)) as [|flow fls] eqn:Efl; [reflexivity|].
    exfalso. destruct (Hf flow) as [Hseg Hall]; [now left|].
    unfold program_statements in Hs. rewrite Efl in Hs. cbn in Hs.
    apply app_eq_nil in Hs as [Hs _].
    destruct (segments flow) as [|seg segs]; [now apply Hseg|].
    cbn in Hs. apply app_eq_nil in Hs as [Hs _].
    inversion Hall; subst. contradiction.
  - intros Hs Efl. apply Hs. unfold program_statements. now rewrite Efl.
Qed.

Lemma parsed_segments_and_flows_nonempty_witness :
  let program :=
    mkProgram [mkFlow [mkSegment [Line "PRINT" ["a"] ">"];
                       mkSegment [Block "f" [] ">"; BLOCK_END ">"]]] in
  List.length (program_statements program) = 3%nat
  /\ (flows program <> [] <-> program_statements program <> []).
Proof.
  pose proof (parsed_segments_and_flows_nonempty
                [mkToken "print" ["a"] ">"; mkToken "f:" [] ">";
                 mkToken "end" [] ">"]
                _ eq_refl) as (_ & _ & _ & L & F).
  exact (conj L F).
Defined.

(** C3, as stated, fails: the Line statement that the colon form of else
    gives is appended with the closing marker and the segment stays open. *)
Lemma colon_form_line_keeps_segment_open :
  ~ (forall st token st' stmt,
        parse_token st token = inr st' ->
        statements_of st' = (statements_of st ++ [stmt])%list ->
        is_arrow_or_line stmt = true ->
        stmt_line_state stmt = ">" ->
        pushes_segment st st' stmt).
Proof.
  intros claim.
  destruct (claim initial (mkToken "else:" [] ">")
                  (mkPState [] [Line "ELSE" [] ">"]) (Line "ELSE" [] ">")
                  eq_refl eq_refl eq_refl eq_refl) as [Hsegs _].
  discriminate Hsegs.
Qed.

(** C3, amended.  Every token that the parser accepts appends exactly one
    statement.  When that statement is an Arrow or a Line whose line-state
    marker is the closing symbol and the token's keyword does not end with
    a colon, the parser pushes the current Segment, now ending with the
    statement, onto the Flow and starts a fresh empty Segment.  When the
    keyword ends with a colon (the colon forms of else, try and finally),
    the statement is appended and the Segment stays open. *)
Theorem segment_closing_after_arrow_and_action_lines :
  forall st token st',
    parse_token st token = inr st' ->
    exists stmt,
      statements_of st' = (statements_of st ++ [stmt])%list
      /\ (is_arrow_or_line stmt = true ->
          stmt_line_state stmt = ">" ->
          (Py.endswith (raw_action token) ":" = false ->
             pushes_segment st st' stmt)
          /\ (Py.endswith (raw_action token) ":" = true ->
              keeps_segment_open st st' stmt)).
Proof.
  intros st token st' H.
  destruct (parse_token_effect _ _ _ H) as (node & [[Hk ->]|R]).
  - exists node. split; [apply statements_append|].
    intros Hal Hls. split.
    + intros Hc. destruct Hk as [Ht|Hk]; [|congruence].
      rewrite (parse_token_terminator st _ Ht) in H.
      injection H as H.
      apply app_inj_tail in H as [_ <-]. discriminate Hal.
    + intros _. split; reflexivity.
  - destruct R as (_ & Hc & _ & Hls' & ->). exists node.
    split; [now rewrite statements_closing, statements_append|].
    intros _ Hls. split; [|congruence].
    intros _. unfold closing. rewrite <- Hls', Hls. cbn.
    split; reflexivity.
Qed.

Lemma segment_closing_after_arrow_and_action_lines_witness :
  pushes_segment initial
    (mkPState [mkSegment [Arrow "A" "B" "->" ">"]] [])
    (Arrow "A" "B" "->" ">")
  /\ keeps_segment_open initial
       (mkPState [] [Line "TRY" [] ">"]) (Line "TRY" [] ">").
Proof.
  split.
  - destruct (segment_closing_after_arrow_and_action_lines
                initial (mkToken "A" ["->"; "B"] ">")
                (mkPState [mkSegment [Arrow "A" "B" "->" ">"]] []) eq_refl)
      as (stmt & Hs & Hclose).
    injection Hs as <-.
    exact (proj1 (Hclose eq_refl eq_refl) eq_refl).
  - destruct (segment_closing_after_arrow_and_action_lines
                initial (mkToken "try:" [] ">")
                (mkPState [] [Line "TRY" [] ">"]) eq_refl)
      as (stmt & Hs & Hclose).
    injection Hs as <-.
    exact (proj2 (Hclose eq_refl eq_refl) eq_refl).
Defined.

(** C5, as stated, fails: a token whose arguments hold an arrow marker and
    whose keyword ends with a colon gives a Block, not an Arrow. *)
Lemma colon_keyword_with_arrow_is_block :
  ~ (forall st token,
        is_terminator token = false ->
        Py.in_list (tok_line_state token) LINE_STATES = true ->
        arrow_marker token <> None ->
        Py.endswith (raw_action token) ":" = true ->
        exists st' src dst direction line_state,
          parse_token st token = inr st'
          /\ statements_of st'
             = (statements_of st
                ++ [Arrow src dst direction line_state])%list).
Proof.
  intros claim.
  destruct (claim initial (mkToken "A:" ["->"; "B"] "~")
                  eq_refl eq_refl ltac:(discriminate) eq_refl)
    as (st' & src & dst & direction & line_state & Hp & Hs).
  vm_compute in Hp. injection Hp as <-. vm_compute in Hs. discriminate Hs.
Qed.

(** C5, amended.  The loop body resolves a token in this order, the first
    match winning: structural check, line-state validation, block-header
    detection, arrow handling, action lookup.  A token that passes the
    first two and whose keyword ends with a colon gives the header node of
    its name (a Block, or the Line of else, try or finally, never an
    Arrow) whether or not its arguments hold an arrow marker; an Arrow is
    built only for a keyword with no trailing colon, and then before the
    action registry is looked at. *)
Theorem token_resolution_order :
  forall st token,
    (is_terminator token = true ->
       parse_token st token
         = inr (append_line st (BLOCK_END (tok_line_state token))))
    /\ (is_terminator token = false ->
        Py.in_list (tok_line_state token) LINE_STATES = false ->
        parse_token st token
          = inl (ParseErr ("Invalid line_state: " ++ tok_line_state token)))
    /\ (is_terminator token = false ->
        Py.in_list (tok_line_state token) LINE_STATES = true ->
        Py.endswith (raw_action token) ":" = true ->
        parse_token st token
          = inr (append_line st
                   (header_node (Py.drop_last (raw_action token))
                                (tok_line_state token)))
        /\ forall src dst direction line_state,
             header_node (Py.drop_last (raw_action token))
                         (tok_line_state token)
             <> Arrow src dst direction line_state)
    /\ (is_terminator token = false ->
        Py.in_list (tok_line_state token) LINE_STATES = true ->
        Py.endswith (raw_action token) ":" = false ->
        forall arrow, arrow_marker token = Some arrow ->
        exists idx, Py.index arrow (raw_args token) = Some idx
                    /\ parse_token st token = arrow_result st token arrow idx)
    /\ (is_terminator token = false ->
        Py.in_list (tok_line_state token) LINE_STATES = true ->
        Py.endswith (raw_action token) ":" = false ->
        arrow_marker token = None ->
        parse_token st token =
          match Py.dict_get (raw_action token) ACTION_LOOKUP with
          | None => inl (ParseErr ("Unknown action: " ++ raw_action token))
          | Some action_id =>
              inr (closing (tok_line_state token)
                     (append_line st
                        (Line action_id (raw_args token)
                              (tok_line_state token))))
          end).
Proof.
  intros st token. split; [|split; [|split; [|split]]].
  - apply parse_token_terminator.
  - intros Ht Hv. rewrite (parse_token_not_terminator _ _ Ht).
    now apply unstructured_invalid.
  - intros Ht Hv Hc. split.
    + rewrite (parse_token_not_terminator _ _ Ht).
      now apply unstructured_header.
    + intros src dst direction line_state. unfold header_node.
      repeat match goal with
             | |- context [if ?b then _ else _] => destruct b
             end; discriminate.
  - intros Ht Hv Hc arrow Ha. rewrite (parse_token_not_terminator _ _ Ht).
    now apply unstructured_arrow.
  - intros Ht Hv Hc Ha. rewrite (parse_token_not_terminator _ _ Ht).
    now apply unstructured_action.
Qed.

Lemma token_resolution_order_witness :
  parse_token initial (mkToken "A:" ["->"; "B"] "~")
    = inr (mkPState [] [Block "A" [] "~"])
  /\ parse_token initial (mkToken "print" ["<-"; "B"] ">")
     = inr (mkPState [mkSegment [Arrow "B" "print" "<-" ">"]] []).
Proof.
  split.
  - exact (proj1 (proj1 (proj2 (proj2
             (token_resolution_order initial
                (mkToken "A:" ["->"; "B"] "~"))))
             eq_refl eq_refl eq_refl)).
  - destruct (proj1 (proj2 (proj2 (proj2
             (token_resolution_order initial
                (mkToken "print" ["<-"; "B"] ">")))))
             eq_refl eq_refl eq_refl "<-" eq_refl) as (idx & Hidx & E).
    vm_compute in Hidx. injection Hidx as <-. exact E.
Defined.

End ParserProperties.

(* ================================================================== *)
(** * Properties of the mapper *)
(* ================================================================== *)

(** ** Replacing one character *)

(** Every [c] of [s] replaced by [new], character by character. *)
Fixpoint subst_char (c : ascii) (new : string) (s : string) : string :=
  match s with
  | EmptyString => EmptyString
  | String a s' =>
      (if Ascii.eqb a c then new else String a EmptyString)
      ++ subst_char c new s'
  end.

Lemma replace_one_char c new s :
  Py.replace (String c EmptyString) new s = subst_char c new s.
Proof.
  unfold Py.replace.
  induction s as [|a s IH]; [reflexivity|].
  cbn [Py.replace_from prefix String.length Nat.sub subst_char].
  destruct (ascii_dec c a) as [->|Hne].
  - rewrite Ascii.eqb_refl.
    replace (prefix EmptyString s) with true by (now destruct s).
    now rewrite IH.
  - destruct (Ascii.eqb_spec a c) as [->|_]; [contradiction|].
    now rewrite IH.
Qed.

Lemma append_assoc (s1 s2 s3 : string) :
  (s1 ++ s2) ++ s3 = s1 ++ (s2 ++ s3).
Proof.
  induction s1 as [|a s1 IH]; [reflexivity|]. cbn [append]. now rewrite IH.
Qed.

Lemma subst_char_app c new s1 s2 :
  subst_char c new (s1 ++ s2) = subst_char c new s1 ++ subst_char c new s2.
Proof.
  induction s1 as [|a s1 IH]; [reflexivity|].
  cbn [append subst_char]. rewrite IH.
  destruct (Ascii.eqb a c); cbn [append];
    [now rewrite append_assoc | reflexivity].
Qed.

Section MapperProperties.
Context {builtins : PyBuiltins}.
Import Mapper.

(** ** PRINT *)

Definition backslash : ascii := ascii_of_nat 92.
Definition dquote_char : ascii := ascii_of_nat 34.

(** A character of a string literal, escaped: a backslash before each
    backslash and each double quote. *)
Definition escape_char (c : ascii) : string :=
  if Ascii.eqb c backslash then "\\"
  else if Ascii.eqb c dquote_char then "\" ++ dquote
  else String c EmptyString.

Fixpoint escape_literal (s : string) : string :=
  match s with
  | EmptyString => EmptyString
  | String c s' => escape_char c ++ escape_literal s'
  end.

Lemma escaped_is_escape_literal s :
  Py.replace dquote ("\" ++ dquote) (Py.replace "\" "\\" s)
  = escape_literal s.
Proof.
  change dquote with (String dquote_char EmptyString).
  change "\" with (String backslash EmptyString) at 2.
  rewrite !replace_one_char.
  induction s as [|a s IH]; [reflexivity|].
  cbn [subst_char escape_literal]. rewrite subst_char_app, IH. f_equal.
  unfold escape_char.
  destruct (Ascii.eqb a backslash) eqn:Eb; [reflexivity|].
  cbn [subst_char]. destruct (Ascii.eqb a dquote_char); reflexivity.
Qed.

Lemma map_line_print args ctx :
  map_line "PRINT" args ctx
  = ([], ctx,
     Return (args, [Py.str_mul indent_str (level ctx) ++ map_print args])).
Proof. reflexivity. Qed.

(** C8.  Lowering a PRINT Line gives one line, the indentation followed by:
    [print()] for no argument; [print(arg)] for one argument that is a
    valid identifier; otherwise [print] of one string literal, the
    arguments joined with single spaces and every backslash and double
    quote escaped.  So hello, world gives the literal hello world, and the
    identifier x gives print(x). *)
Theorem map_print_cases :
  forall args ctx,
    map_print args =
      match args with
      | [] => "print()"
      | [arg] =>
          if is_valid_identifier arg then "print(" ++ arg ++ ")"
          else "print(" ++ dquote ++ escape_literal arg ++ dquote ++ ")"
      | _ =>
          "print(" ++ dquote ++ escape_literal (Py.join " " args)
                   ++ dquote ++ ")"
      end
    /\ map_line "PRINT" args ctx
       = ([], ctx,
          Return (args,
                  [Py.str_mul indent_str (level ctx) ++ map_print args]))
    /\ map_print ["hello"; "world"]
       = "print(" ++ dquote ++ "hello world" ++ dquote ++ ")"
    /\ (is_valid_identifier "x" = true -> map_print ["x"] = "print(x)").
Proof.
  intros args ctx. split; [|split; [apply map_line_print|split]].
  - destruct args as [|arg [|arg2 rest]]; [reflexivity| |].
    + unfold map_print. cbn [List.length Nat.eqb andb nth].
      destruct (is_valid_identifier arg); [reflexivity|].
      now rewrite escaped_is_escape_literal.
    + unfold map_print. cbn [List.length Nat.eqb andb].
      now rewrite escaped_is_escape_literal.
  - reflexivity.
  - intros Hx. unfold map_print. cbn [List.length Nat.eqb andb nth].
    now rewrite Hx.
Qed.

(** ** SET *)

(** The operator symbol of an arithmetic-operator alias. *)
Definition arith_symbol (word : string) : option string :=
  if Py.in_list word ["加"; "add"] then Some "+"
  else if Py.in_list word ["减"; "sub"] then Some "-"
  else if Py.in_list word ["乘"; "mul"] then Some "*"
  else if Py.in_list word ["除"; "div"] then Some "/"
  else None.

Definition raises {A} (o : Outcome A) : Prop := exists e, o = Raise e.

Lemma map_line_set args ctx :
  map_line "SET" args ctx =
    match map_set args with
    | Return text =>
        ([], ctx,
         Return (args, [Py.str_mul indent_str (level ctx) ++ text]))
    | Raise e => ([], ctx, Raise e)
    end.
Proof.
  unfold map_line, bind, lift, Ctx.get_indent. cbn [String.eqb Ascii.eqb
    Bool.eqb].
  destruct (map_set args); reflexivity.
Qed.

Lemma map_set_invalid_target target rest :
  is_valid_identifier target = false ->
  raises (map_set (target :: rest)).
Proof.
  intros H. unfold map_set, raises. cbn [nth].
  destruct (List.length (target :: rest) <? 2)%nat; [eauto|].
  rewrite H. cbn [negb]. eauto.
Qed.

Lemma map_set_alias_three target op e1 sym :
  arith_symbol op = Some sym -> raises (map_set [target; op; e1]).
Proof.
  intros Hop. unfold map_set, raises, arith_symbol in *.
  cbn [List.length Nat.ltb Nat.leb Nat.eqb nth].
  destruct (is_valid_identifier target); cbn [negb]; [|eauto].
  destruct (Py.in_list op ["加"; "add"]); [eauto|].
  destruct (Py.in_list op ["减"; "sub"]); [eauto|].
  destruct (Py.in_list op ["乘"; "mul"]); [eauto|].
  destruct (Py.in_list op ["除"; "div"]); [eauto|discriminate].
Qed.

Lemma map_set_alias_many target op e1 e2 e3 more sym :
  arith_symbol op = Some sym ->
  raises (map_set (target :: op :: e1 :: e2 :: e3 :: more)).
Proof.
  intros Hop. unfold map_set, raises, arith_symbol in *.
  cbn [List.length Nat.ltb Nat.leb Nat.eqb nth].
  destruct (is_valid_identifier target); cbn [negb]; [|eauto].
  destruct (Py.in_list op ["加"; "add"]); [eauto|].
  destruct (Py.in_list op ["减"; "sub"]); [eauto|].
  destruct (Py.in_list op ["乘"; "mul"]); [eauto|].
  destruct (Py.in_list op ["除"; "div"]); [eauto|discriminate].
Qed.

Lemma map_set_alias_four target op lhs rhs sym :
  arith_symbol op = Some sym ->
  is_valid_identifier target = true ->
  map_set [target; op; lhs; rhs]
  = Return (target ++ " = " ++ to_py_value lhs ++ " " ++ sym
                   ++ " " ++ to_py_value rhs).
Proof.
  intros Hop Hid. unfold map_set, arith_symbol in *.
  cbn [List.length Nat.ltb Nat.leb Nat.eqb nth]. rewrite Hid. cbn [negb].
  destruct (Py.in_list op ["加"; "add"]);
    [injection Hop as <-; reflexivity|].
  destruct (Py.in_list op ["减"; "sub"]);
    [injection Hop as <-; reflexivity|].
  destruct (Py.in_list op ["乘"; "mul"]);
    [injection Hop as <-; reflexivity|].
  destruct (Py.in_list op ["除"; "div"]);
    [injection Hop as <-; reflexivity|discriminate].
Qed.

(** C7.  For a SET whose second argument is an arithmetic-operator alias:
    with three arguments, or with more than four, the mapper raises
    MapError; with exactly four whose first is a valid identifier it gives
    the one line [target = left OP right], both operands lowered by
    to_py_value and OP the symbol of the alias.  A SET whose target is not
    a valid identifier raises MapError whatever follows, as does a SET with
    no argument; what map_set raises, the lowering of the Line raises. *)
Theorem set_arithmetic_shape :
  (forall target op e1 sym,
      arith_symbol op = Some sym ->
      raises (map_set [target; op; e1]))
  /\ (forall target op e1 e2 e3 more sym,
        arith_symbol op = Some sym ->
        raises (map_set (target :: op :: e1 :: e2 :: e3 :: more)))
  /\ (forall target op lhs rhs sym ctx,
        arith_symbol op = Some sym ->
        is_valid_identifier target = true ->
        map_set [target; op; lhs; rhs]
          = Return (target ++ " = " ++ to_py_value lhs ++ " " ++ sym
                           ++ " " ++ to_py_value rhs)
        /\ map_line "SET" [target; op; lhs; rhs] ctx
           = ([], ctx,
              Return ([target; op; lhs; rhs],
                      [Py.str_mul indent_str (level ctx)
                       ++ target ++ " = " ++ to_py_value lhs ++ " " ++ sym
                       ++ " " ++ to_py_value rhs])))
  /\ (forall target rest,
        is_valid_identifier target = false ->
        raises (map_set (target :: rest)))
  /\ raises (map_set [])
  /\ (forall args ctx e,
        map_set args = Raise e ->
        map_line "SET" args ctx = ([], ctx, Raise e)).
Proof.
  split; [|split; [|split; [|split; [|split]]]].
  - apply map_set_alias_three.
  - apply map_set_alias_many.
  - intros target op lhs rhs sym ctx Hop Hid.
    pose proof (map_set_alias_four target op lhs rhs sym Hop Hid) as E.
    split; [exact E|]. rewrite map_line_set, E. reflexivity.
  - apply map_set_invalid_target.
  - unfold raises. cbn. eauto.
  - intros args ctx e H. rewrite map_line_set, H. reflexivity.
Qed.

(** ** What lowering a Line does to the tracker *)

(** The part of a Line's lowering that does not depend on the tracker: an
    error, or the args list afterwards, the text after the indentation and
    whether the line opens a block. *)
Definition Lowered : Type := Outcome (list string * string * bool).

Definition emit (o : Lowered) : Gen (list string * list string) :=
  fun ctx =>
    match o with
    | Raise e => ([], ctx, Raise e)
    | Return (args, text, opens) =>
        let line := Py.str_mul indent_str (level ctx) ++ text in
        if opens : bool then
          ([CallIndent (level ctx + 1)],
           mkCtx (level ctx + 1) (last_was_block_end ctx),
           Return (args, [line]))
        else ([], ctx, Return (args, [line]))
    end.

Ltac lowered_done :=
  first [ eexists (Raise _); intro; reflexivity
        | eexists (Return (_, _, true)); intro; reflexivity
        | eexists (Return (_, _, false)); intro; reflexivity ].

Ltac lowered_condition args :=
  destruct args as [|? ?];
  [ lowered_done
  | match goal with
    | |- context [build_condition ?a] => destruct (build_condition a)
    end; lowered_done ].

(** Lowering a Line reads the tracker only for the indentation and changes
    it only by one [indent] after a block header. *)
Lemma map_line_lowered action args :
  exists o : Lowered, forall ctx, map_line action args ctx = emit o ctx.
Proof.
  unfold map_line.
  destruct (String.eqb action "DEF");
    [unfold map_def; destruct args; lowered_done|].
  destruct (String.eqb action "IF");
    [unfold map_if; lowered_condition args|].
  destruct (String.eqb action "ELIF");
    [unfold map_elif; lowered_condition args|].
  destruct (String.eqb action "ELSE"); [unfold map_else; lowered_done|].
  destruct (String.eqb action "WHILE");
    [unfold map_while; lowered_condition args|].
  destruct (String.eqb action "FOR");
    [unfold map_for; destruct (List.length args <? 3)%nat; lowered_done|].
  destruct (String.eqb action "TRY"); [unfold map_try; lowered_done|].
  destruct (String.eqb action "EXCEPT");
    [unfold map_except; destruct args; lowered_done|].
  destruct (String.eqb action "FINALLY");
    [unfold map_finally; lowered_done|].
  destruct (String.eqb action "RETURN"); [lowered_done|].
  destruct (String.eqb action "BREAK"); [lowered_done|].
  destruct (String.eqb action "CONTINUE"); [lowered_done|].
  destruct (String.eqb action "PASS"); [lowered_done|].
  destruct (String.eqb action "PRINT"); [lowered_done|].
  destruct (String.eqb action "SET");
    [destruct (map_set args); lowered_done|].
  destruct (String.eqb action "CALL");
    [destruct (map_call args); lowered_done|].
  destruct (String.eqb action "ADD");
    [destruct (map_arithmetic args "+"); lowered_done|].
  destruct (String.eqb action "SUB");
    [destruct (map_arithmetic args "-"); lowered_done|].
  destruct (String.eqb action "MUL");
    [destruct (map_arithmetic args "*"); lowered_done|].
  destruct (String.eqb action "DIV");
    [destruct (map_arithmetic args "/"); lowered_done|].
  lowered_done.
Qed.

(** ** Continuation keywords *)

Definition is_continuation (action : string) : bool :=
  Py.in_list action ["ELIF"; "ELSE"; "EXCEPT"; "FINALLY"].

Definition is_dedent_call (c : TrackerCall) : bool :=
  match c with CallDedent _ => true | CallIndent _ => false end.

(** How many times [dedent] was called. *)
Definition dedent_calls (calls : list TrackerCall) : nat :=
  List.length (filter is_dedent_call calls).

(** [m] run after one more call of [dedent]. *)
Definition after_dedent {A} (m : Gen A) : Gen A :=
  fun ctx =>
    match m (Ctx.dedent_ctx ctx) with
    | (calls, ctx', o) =>
        (CallDedent (level (Ctx.dedent_ctx ctx)) :: calls, ctx', o)
    end.

Lemma tracking_unfold action args ctx :
  map_line_with_block_end_tracking action args ctx =
    if is_continuation action && negb (last_was_block_end ctx)
    then after_dedent (map_line action args) ctx
    else map_line action args ctx.
Proof.
  unfold map_line_with_block_end_tracking, is_continuation, after_dedent,
    bind, Ctx.get_last_was_block_end.
  destruct (Py.in_list action ["ELIF"; "ELSE"; "EXCEPT"; "FINALLY"]
            && negb (last_was_block_end ctx)).
  - unfold Ctx.dedent.
    destruct (map_line action args (Ctx.dedent_ctx ctx)) as [[calls c] o].
    reflexivity.
  - unfold ret. destruct (map_line action args ctx) as [[calls c] o].
    reflexivity.
Qed.

Lemma emit_has_no_dedent o ctx : dedent_calls (calls_of (emit o ctx)) = O.
Proof.
  unfold emit. destruct o as [[[a t] [|]]|e]; reflexivity.
Qed.

(** The dedent before a continuation header, in terms of the flag.
    Lowering a Line whose action is ELIF, ELSE, EXCEPT or FINALLY
    calls dedent exactly once if last_was_block_end is false and not at
    all if it is true; the call comes before the header is built, so the
    header is lowered in the dedented context.  With the flag false, the
    Line alone makes the same calls, gives the same result (the same
    header text, or the same error) and leaves the same depth as a
    BLOCK_END followed by the Line: the header has the indentation it
    would have after an explicit terminator. *)
Theorem continuation_dedents_unless_after_block_end :
  forall action args line_state ctx,
    is_continuation action = true ->
    (dedent_calls
       (calls_of (map_statement (Line action args line_state) ctx)) = 1%nat
     <-> last_was_block_end ctx = false)
    /\ (dedent_calls
          (calls_of (map_statement (Line action args line_state) ctx)) = O
        <-> last_was_block_end ctx = true)
    /\ (last_was_block_end ctx = false ->
        map_line_with_block_end_tracking action args ctx
        = after_dedent (map_line action args) ctx)
    /\ (last_was_block_end ctx = true ->
        map_line_with_block_end_tracking action args ctx
        = map_line action args ctx)
    /\ (last_was_block_end ctx = false ->
        forall line_state',
          let alone := map_statement (Line action args line_state) ctx in
          let after_end :=
            (map_statement (BLOCK_END line_state') ;;;
             map_statement (Line action args line_state)) ctx in
          calls_of alone = calls_of after_end
          /\ outcome_of alone = outcome_of after_end
          /\ level (ctx_of alone) = level (ctx_of after_end)).
Proof.
  intros action args line_state ctx Hk.
  destruct (map_line_lowered action args) as (o & Ho).
  assert (Hcalls :
    dedent_calls (calls_of (map_statement (Line action args line_state) ctx))
    = if last_was_block_end ctx then O else 1%nat).
  { unfold map_statement, bind. rewrite tracking_unfold, Hk.
    unfold after_dedent. rewrite !Ho.
    destruct ctx as [l [|]]; cbn [last_was_block_end negb andb];
      unfold emit, Ctx.set_last_was_block_end, ret;
      destruct o as [[[a t] [|]]|e]; reflexivity. }
  split; [|split; [|split; [|split]]].
  - rewrite Hcalls. destruct (last_was_block_end ctx); split;
      congruence.
  - rewrite Hcalls. destruct (last_was_block_end ctx); split;
      congruence.
  - intros Hf. now rewrite tracking_unfold, Hk, Hf.
  - intros Hf. now rewrite tracking_unfold, Hk, Hf.
  - intros Hf line_state'.
    unfold map_statement, bind, Ctx.dedent, Ctx.set_last_was_block_end, ret.
    rewrite !tracking_unfold, Hk, Hf. cbn [last_was_block_end negb andb].
    unfold after_dedent. rewrite !Ho.
    destruct ctx as [l b]. cbn in Hf. subst b.
    unfold Ctx.dedent_ctx. cbn [level last_was_block_end].
    destruct (l >? 0)%Z; unfold emit;
      destruct o as [[[a t] [|]]|e]; repeat split; reflexivity.
Qed.

(** ** The flag after a statement *)

Lemma flag_after_statement stmt ctx stmt' lines :
  outcome_of (map_statement stmt ctx) = Return (stmt', lines) ->
  last_was_block_end (ctx_of (map_statement stmt ctx)) =
    match stmt with
    | BLOCK_END _ => true
    | Arrow _ _ _ _ => last_was_block_end ctx
    | _ => false
    end.
Proof.
  destruct stmt as [action args ls| | | |]; try reflexivity; [|discriminate].
  unfold map_statement, bind.
  destruct (map_line_with_block_end_tracking action args ctx)
    as [[calls c] [[a r]|e]]; [reflexivity | discriminate].
Qed.

(** C4, on the code.  Processing an Arrow statement makes no call and
    leaves the tracker as it was, last_was_block_end included: after a
    BLOCK_END followed by an Arrow the flag is still true. *)
Theorem arrow_leaves_block_end_flag_set :
  forall src dst direction line_state ctx,
    map_statement (Arrow src dst direction line_state) ctx
      = ([], ctx, Return (Arrow src dst direction line_state, []))
    /\ last_was_block_end
         (ctx_of (map_lines [BLOCK_END line_state;
                             Arrow src dst direction line_state]
                            new_context)) = true.
Proof. intros. split; reflexivity. Qed.

(** ** The Program tree after generation *)

Lemma build_condition_args args :
  fst (build_condition args) =
    match args with
    | [] => []
    | _ =>
        if Py.endswith (Py.last_item args) ":"
        then Py.set_last args (Py.rstrip ":" (Py.last_item args))
        else args
    end.
Proof.
  unfold build_condition. cbv zeta.
  match goal with
  | |- fst (if ?b then _ else _) = _ => destruct b
  end; destruct args; reflexivity.
Qed.

Ltac args_kept :=
  cbn; intros E; try discriminate E; injection E as <- _; reflexivity.

Ltac args_of_condition args :=
  destruct args as [|? ?];
  [ args_kept
  | match goal with
    | |- context [build_condition ?a] => destruct (build_condition a)
    end; args_kept ].

(** The args list of a Line after its lowering: only the three actions
    that build a condition write to it. *)
Lemma map_line_args action args ctx args' lines :
  outcome_of (map_line action args ctx) = Return (args', lines) ->
  args' = if Py.in_list action ["IF"; "ELIF"; "WHILE"]
          then fst (build_condition args)
          else args.
Proof.
  unfold map_line, Py.in_list, outcome_of, bind, Ctx.get_indent, keeping.
  cbn [existsb].
  destruct (String.eqb action "DEF") eqn:E0;
    [apply String.eqb_eq in E0; subst action; unfold map_def;
     destruct args; args_kept|].
  destruct (String.eqb action "IF");
    [unfold map_if; args_of_condition args|].
  destruct (String.eqb action "ELIF");
    [unfold map_elif; args_of_condition args|].
  destruct (String.eqb action "ELSE") eqn:E3;
    [apply String.eqb_eq in E3; subst action; unfold map_else; args_kept|].
  destruct (String.eqb action "WHILE");
    [unfold map_while; args_of_condition args|].
  cbn [orb].
  destruct (String.eqb action "FOR");
    [unfold map_for; destruct (List.length args <? 3)%nat; args_kept|].
  destruct (String.eqb action "TRY"); [unfold map_try; args_kept|].
  destruct (String.eqb action "EXCEPT");
    [unfold map_except; destruct args; args_kept|].
  destruct (String.eqb action "FINALLY"); [unfold map_finally; args_kept|].
  destruct (String.eqb action "RETURN"); [args_kept|].
  destruct (String.eqb action "BREAK"); [args_kept|].
  destruct (String.eqb action "CONTINUE"); [args_kept|].
  destruct (String.eqb action "PASS"); [args_kept|].
  destruct (String.eqb action "PRINT"); [args_kept|].
  destruct (String.eqb action "SET");
    [destruct (map_set args); args_kept|].
  destruct (String.eqb action "CALL");
    [destruct (map_call args); args_kept|].
  destruct (String.eqb action "ADD");
    [destruct (map_arithmetic args "+"); args_kept|].
  destruct (String.eqb action "SUB");
    [destruct (map_arithmetic args "-"); args_kept|].
  destruct (String.eqb action "MUL");
    [destruct (map_arithmetic args "*"); args_kept|].
  destruct (String.eqb action "DIV");
    [destruct (map_arithmetic args "/"); args_kept|].
  args_kept.
Qed.

Lemma map_if_run arg rest ctx :
  map_if (arg :: rest) ctx =
    ([CallIndent (level ctx + 1)],
     mkCtx (level ctx + 1) (last_was_block_end ctx),
     Return (fst (build_condition (arg :: rest)),
             [Py.str_mul indent_str (level ctx) ++ "if "
              ++ snd (build_condition (arg :: rest)) ++ ":"])).
Proof.
  unfold map_if. destruct (build_condition (arg :: rest)). reflexivity.
Qed.

(** C2, on the code.  build_condition assigns the stripped token to the
    last element of the args list it is given, which is the list stored in
    the Line node: after map_program has lowered an IF whose last argument
    ends with a colon, the stored token has lost the colon. *)
Theorem generation_strips_stored_condition_token :
  fst (build_condition ["x"; "是"; "1:"]) = ["x"; "是"; "1"]
  /\ exists text,
       map_program
         (mkProgram [mkFlow [mkSegment
            [Line "IF" ["x"; "是"; "1:"] "~"; Line "PASS" [] "~"]]])
       = Return
           (mkProgram [mkFlow [mkSegment
              [Line "IF" ["x"; "是"; "1"] "~"; Line "PASS" [] "~"]]],
            text).
Proof.
  split; [now rewrite build_condition_args|].
  exists (Py.join newline
            ["if " ++ snd (build_condition ["x"; "是"; "1:"]) ++ ":";
             indent_str ++ "pass"]).
  unfold map_program, map_program_run.
  cbv - [map_if build_condition Py.join newline append].
  rewrite map_if_run, build_condition_args.
  reflexivity.
Qed.

(** ** The depth never goes below zero *)

Definition call_level (c : TrackerCall) : Z :=
  match c with CallIndent l | CallDedent l => l end.

(** The depth is non-negative after every call of the run and at its end. *)
Definition depth_ok {A}
  (r : list TrackerCall * IndentContext * Outcome A) : Prop :=
  (0 <= level (ctx_of r))%Z
  /\ Forall (fun c => (0 <= call_level c)%Z) (calls_of r).

Definition keeps_depth {A} (m : Gen A) : Prop :=
  forall ctx, (0 <= level ctx)%Z -> depth_ok (m ctx).

Lemma keeps_ret {A} (a : A) : keeps_depth (ret a).
Proof. intros ctx H. split; [exact H | constructor]. Qed.

Lemma keeps_raise {A} msg : keeps_depth (@raise A msg).
Proof. intros ctx H. split; [exact H | constructor]. Qed.

Lemma keeps_bind {A B} (m : Gen A) (k : A -> Gen B) :
  keeps_depth m -> (forall a, keeps_depth (k a)) -> keeps_depth (bind m k).
Proof.
  intros Hm Hk ctx H. specialize (Hm ctx H). unfold bind, depth_ok in *.
  destruct (m ctx) as [[calls1 ctx1] [a|e]]; cbn in Hm; [|exact Hm].
  destruct Hm as [H1 F1]. specialize (Hk a ctx1 H1). unfold depth_ok in Hk.
  destruct (k a ctx1) as [[calls2 ctx2] o]. cbn in *.
  split; [tauto | apply Forall_app; tauto].
Qed.

Lemma keeps_indent : keeps_depth Ctx.indent.
Proof.
  intros ctx H. split; cbn; [lia | constructor; [cbn; lia | constructor]].
Qed.

Lemma dedent_ctx_nonneg ctx :
  (0 <= level ctx)%Z -> (0 <= level (Ctx.dedent_ctx ctx))%Z.
Proof.
  intros H. unfold Ctx.dedent_ctx.
  destruct (Z.gtb_spec (level ctx) 0); cbn; lia.
Qed.

Lemma keeps_dedent : keeps_depth Ctx.dedent.
Proof.
  intros ctx H. pose proof (dedent_ctx_nonneg ctx H).
  split; cbn; [assumption | constructor; [assumption | constructor]].
Qed.

Lemma keeps_emit o : keeps_depth (emit o).
Proof.
  intros ctx H. unfold emit, depth_ok.
  destruct o as [[[a t] [|]]|e]; cbn; split;
    try lia; repeat constructor; cbn; lia.
Qed.

Lemma keeps_map_line action args : keeps_depth (map_line action args).
Proof.
  destruct (map_line_lowered action args) as (o & Ho).
  intros ctx H. rewrite Ho. now apply keeps_emit.
Qed.

Lemma keeps_map_statement stmt : keeps_depth (map_statement stmt).
Proof.
  destruct stmt as [action args ls| | | |]; cbn [map_statement].
  - apply keeps_bind.
    + unfold map_line_with_block_end_tracking.
      apply keeps_bind; [intros ctx H; split; [exact H | constructor]|].
      intros b. apply keeps_bind; [|intros _; apply keeps_map_line].
      destruct (_ && _); [apply keeps_dedent | apply keeps_ret].
    + intros [a r]. apply keeps_bind; [|intros; apply keeps_ret].
      intros ctx H. split; [exact H | constructor].
  - apply keeps_bind; [intros ctx H; split; [exact H | constructor]|].
    intros _. apply keeps_bind; [apply keeps_ret | intros; apply keeps_ret].
  - apply keeps_ret.
  - apply keeps_bind; [apply keeps_dedent|]. intros _.
    apply keeps_bind; [|intros; apply keeps_ret].
    intros ctx H. split; [exact H | constructor].
  - apply keeps_raise.
Qed.

Lemma keeps_map_lines stmts : keeps_depth (map_lines stmts).
Proof.
  induction stmts as [|stmt rest IH]; cbn [map_lines]; [apply keeps_ret|].
  apply keeps_bind; [apply keeps_map_statement|]. intros [l r].
  apply keeps_bind; [exact IH|]. intros [l' r']. apply keeps_ret.
Qed.

Lemma keeps_map_segments segs : keeps_depth (map_segments segs).
Proof.
  induction segs as [|seg rest IH]; cbn [map_segments]; [apply keeps_ret|].
  apply keeps_bind.
  - unfold map_segment. apply keeps_bind; [apply keeps_map_lines|].
    intros [l r]. apply keeps_ret.
  - intros [l r]. apply keeps_bind; [exact IH|]. intros [l' r'].
    apply keeps_ret.
Qed.

Lemma keeps_map_flows fls : keeps_depth (map_flows fls).
Proof.
  induction fls as [|flow rest IH]; cbn [map_flows]; [apply keeps_ret|].
  apply keeps_bind.
  - unfold map_flow. apply keeps_bind; [apply keeps_map_segments|].
    intros [l r]. apply keeps_ret.
  - intros [l r]. apply keeps_bind; [exact IH|]. intros [l' r'].
    apply keeps_ret.
Qed.

(** ** Whether generation raises does not depend on the tracker *)

(** Both raise the same error, or both return and the results are related. *)
Definition same_fate {A} (R : A -> A -> Prop) (o1 o2 : Outcome A) : Prop :=
  match o1, o2 with
  | Return a1, Return a2 => R a1 a2
  | Raise e1, Raise e2 => e1 = e2
  | _, _ => False
  end.

Definition alike {A} (R : A -> A -> Prop) (m1 m2 : Gen A) : Prop :=
  forall c1 c2, same_fate R (outcome_of (m1 c1)) (outcome_of (m2 c2)).

(** The trees the two runs leave are equal; the lines may differ. *)
Definition same_tree {T} (x y : T * list string) : Prop := fst x = fst y.

Lemma alike_bind {A B} (R : A -> A -> Prop) (S : B -> B -> Prop)
  (m1 m2 : Gen A) (k1 k2 : A -> Gen B) :
  alike R m1 m2 ->
  (forall a1 a2, R a1 a2 -> alike S (k1 a1) (k2 a2)) ->
  alike S (bind m1 k1) (bind m2 k2).
Proof.
  intros Hm Hk c1 c2. specialize (Hm c1 c2). unfold bind, outcome_of in *.
  destruct (m1 c1) as [[t1 c1'] [a1|e1]], (m2 c2) as [[t2 c2'] [a2|e2]];
    cbn in Hm; try contradiction; [|exact Hm].
  specialize (Hk a1 a2 Hm c1' c2').
  destruct (k1 a1 c1') as [[? ?] ?], (k2 a2 c2') as [[? ?] ?]. exact Hk.
Qed.

Lemma alike_map_statement stmt :
  alike same_tree (map_statement stmt) (map_statement stmt).
Proof.
  destruct stmt as [action args ls| | | |]; try (intros c1 c2; reflexivity).
  destruct (map_line_lowered action args) as (o & Ho).
  intros c1 c2. unfold map_statement, bind.
  rewrite !tracking_unfold. unfold after_dedent. rewrite !Ho.
  destruct (_ && _), (_ && _); unfold emit;
    destruct o as [[[a t] [|]]|e]; reflexivity.
Qed.

Lemma alike_map_lines stmts :
  alike same_tree (map_lines stmts) (map_lines stmts).
Proof.
  induction stmts as [|stmt rest IH]; cbn [map_lines];
    [intros c1 c2; reflexivity|].
  eapply alike_bind; [apply alike_map_statement|].
  intros [l1 r1] [l2 r2] E. unfold same_tree in E. cbn in E. subst l2.
  eapply alike_bind; [exact IH|].
  intros [l1' r1'] [l2' r2'] E. unfold same_tree in E. cbn in E. subst l2'.
  intros c1 c2. reflexivity.
Qed.

Lemma alike_map_segments segs :
  alike same_tree (map_segments segs) (map_segments segs).
Proof.
  induction segs as [|seg rest IH]; cbn [map_segments];
    [intros c1 c2; reflexivity|].
  eapply (alike_bind same_tree).
  - unfold map_segment. eapply alike_bind; [apply alike_map_lines|].
    intros [l1 r1] [l2 r2] E. unfold same_tree in E. cbn in E. subst l2. intros c1 c2. reflexivity.
  - intros [l1 r1] [l2 r2] E. unfold same_tree in E. cbn in E. subst l2.
    eapply alike_bind; [exact IH|].
    intros [l1' r1'] [l2' r2'] E. unfold same_tree in E. cbn in E. subst l2'.
    intros c1 c2. reflexivity.
Qed.

Lemma alike_map_flows fls :
  alike same_tree (map_flows fls) (map_flows fls).
Proof.
  induction fls as [|flow rest IH]; cbn [map_flows];
    [intros c1 c2; reflexivity|].
  eapply (alike_bind same_tree).
  - unfold map_flow. eapply alike_bind; [apply alike_map_segments|].
    intros [l1 r1] [l2 r2] E. unfold same_tree in E. cbn in E. subst l2. intros c1 c2. reflexivity.
  - intros [l1 r1] [l2 r2] E. unfold same_tree in E. cbn in E. subst l2.
    eapply alike_bind; [exact IH|].
    intros [l1' r1'] [l2' r2'] E. unfold same_tree in E. cbn in E. subst l2'.
    intros c1 c2. reflexivity.
Qed.

(** ** More terminators than open blocks *)

Lemma dedent_at_zero ctx :
  level ctx = 0%Z -> Ctx.dedent ctx = ([CallDedent 0], ctx, Return tt).
Proof. destruct ctx as [l b]. cbn. intros ->. reflexivity. Qed.

Lemma block_end_run ls ctx :
  map_statement (BLOCK_END ls) ctx
  = ([CallDedent (level (Ctx.dedent_ctx ctx))],
     mkCtx (level (Ctx.dedent_ctx ctx)) true,
     Return (BLOCK_END ls, [])).
Proof. reflexivity. Qed.

(** From depth zero, [n] terminators make [n] calls of [dedent], leave the
    depth at zero and emit nothing; the statements after them are lowered
    from depth zero. *)
Lemma block_ends_at_zero ls rest : forall n ctx,
  level ctx = 0%Z ->
  exists calls ctx',
    level ctx' = 0%Z
    /\ map_lines (repeat (BLOCK_END ls) n ++ rest)%list ctx
       = match map_lines rest ctx' with
         | (c, cx, o) =>
             ((calls ++ c)%list, cx,
              match o with
              | Return (r, lines) =>
                  Return ((repeat (BLOCK_END ls) n ++ r)%list, lines)
              | Raise e => Raise e
              end)
         end.
Proof.
  induction n as [|n IH]; intros ctx H.
  - exists [], ctx. split; [exact H|]. cbn [repeat app].
    destruct (map_lines rest ctx) as [[c cx] [[r l]|e]]; reflexivity.
  - assert (H1 : level (mkCtx (level (Ctx.dedent_ctx ctx)) true) = 0%Z).
    { destruct ctx as [l b]. cbn in H. subst l. reflexivity. }
    destruct (IH _ H1) as (calls & ctx' & H' & E).
    exists (CallDedent (level (Ctx.dedent_ctx ctx)) :: calls), ctx'.
    split; [exact H'|].
    cbn [repeat app map_lines]. unfold bind at 1.
    rewrite block_end_run. unfold bind at 1. rewrite E.
    destruct (map_lines rest ctx') as [[c cx] [[r l]|e]];
      unfold ret; cbn [app]; rewrite ?app_nil_r; reflexivity.
Qed.

(** The depth is non-negative after every call on the tracker and at
    the end of every generation pass; dedent at depth zero returns
    normally and leaves the tracker as it was; a BLOCK_END never raises;
    whether generation raises does not depend on the tracker; after any
    number of terminators from a fresh context the next Line carries no
    indentation. *)
Lemma depth_invariants :
  (forall program, depth_ok (map_program_run program))
  /\ (forall stmts ctx,
        (0 <= level ctx)%Z -> depth_ok (map_lines stmts ctx))
  /\ (forall ctx,
        level ctx = 0%Z ->
        Ctx.dedent ctx = ([CallDedent 0], ctx, Return tt))
  /\ (forall ls ctx,
        outcome_of (map_statement (BLOCK_END ls) ctx)
        = Return (BLOCK_END ls, []))
  /\ (forall fls c1 c2,
        same_fate same_tree (outcome_of (map_flows fls c1))
                            (outcome_of (map_flows fls c2)))
  /\ (forall n ls action args line_state,
        exists o : Lowered,
          (forall ctx, map_line action args ctx = emit o ctx)
          /\ outcome_of
               (map_lines (repeat (BLOCK_END ls) n
                           ++ [Line action args line_state])%list
                          new_context)
             = match o with
               | Return (args', text, _) =>
                   Return ((repeat (BLOCK_END ls) n
                            ++ [Line action args' line_state])%list,
                           [text])
               | Raise e => Raise e
               end).
Proof.
  split; [|split; [|split; [|split; [|split]]]].
  - intros program. unfold map_program_run.
    apply keeps_bind; [apply keeps_map_flows | | cbn; lia].
    intros [fls lines]. apply keeps_ret.
  - intros stmts ctx H. now apply keeps_map_lines.
  - apply dedent_at_zero.
  - reflexivity.
  - intros fls c1 c2. apply alike_map_flows.
  - intros n ls action args line_state.
    destruct (map_line_lowered action args) as (o & Ho).
    exists o. split; [exact Ho|].
    destruct (block_ends_at_zero ls [Line action args line_state] n
                new_context eq_refl) as (calls & ctx' & Hl & E).
    rewrite E. clear E.
    unfold map_lines, map_statement, bind.
    rewrite tracking_unfold. unfold after_dedent. rewrite !Ho.
    destruct ctx' as [l b]. cbn in Hl. subst l.
    destruct (_ && _); unfold emit;
      destruct o as [[[a t] [|]]|e]; reflexivity.
Qed.

End MapperProperties.

Lemma map_print_cases_witness :
  @Mapper.map_print Reference.builtins ["x"] = "print(x)".
Proof.
  exact (proj2 (proj2 (proj2
           (@map_print_cases Reference.builtins [] Mapper.new_context)))
           eq_refl).
Defined.

Lemma set_arithmetic_shape_witness :
  @Mapper.map_set Reference.builtins ["result"; "add"; "2"; "3"]
    = Mapper.Return "result = 2 + 3"
  /\ raises (@Mapper.map_set Reference.builtins ["result"; "加"; "2"])
  /\ raises (@Mapper.map_set Reference.builtins ["9x"; "mul"; "2"; "3"]).
Proof.
  pose proof (@set_arithmetic_shape Reference.builtins)
    as (H3 & _ & H4 & Hbad & _).
  split; [|split].
  - exact (proj1 (H4 "result" "add" "2" "3" "+" Mapper.new_context
                     eq_refl eq_refl)).
  - exact (H3 "result" "加" "2" "+" eq_refl).
  - exact (Hbad "9x" ["mul"; "2"; "3"] eq_refl).
Defined.

Lemma continuation_dedents_unless_after_block_end_witness :
  dedent_calls
    (Mapper.calls_of
       (@Mapper.map_statement Reference.builtins (Line "ELSE" [] "~")
          (Mapper.mkCtx 2 false))) = 1%nat
  /\ Mapper.outcome_of
       (@Mapper.map_statement Reference.builtins (Line "ELSE" [] "~")
          (Mapper.mkCtx 2 false))
     = Mapper.outcome_of
         (Mapper.bind
            (@Mapper.map_statement Reference.builtins (BLOCK_END "~"))
            (fun _ => @Mapper.map_statement Reference.builtins
                        (Line "ELSE" [] "~"))
            (Mapper.mkCtx 2 false)).
Proof.
  pose proof (@continuation_dedents_unless_after_block_end
                Reference.builtins "ELSE" [] "~" (Mapper.mkCtx 2 false)
                eq_refl) as (H1 & _ & _ & _ & H5).
  split; [exact (proj2 H1 eq_refl) | exact (proj1 (proj2 (H5 eq_refl "~")))].
Defined.


(* ================================================================== *)
(** * The scenarios of the specification, run on the reference builtins *)
(* ================================================================== *)

Section Scenarios.
Import Mapper.
#[local] Existing Instance Reference.builtins.

Let program_of (stmts : list Statement) : Program :=
  mkProgram [mkFlow [mkSegment stmts]].

(** The source text of a program, or the error. *)
Let text_of (stmts : list Statement) : Outcome string :=
  match map_program (program_of stmts) with
  | Return (_, text) => Return text
  | Raise e => Raise e
  end.

Example scenario_print_identifier :
  text_of [Line "PRINT" ["x"] "~"] = Return "print(x)".
Proof. reflexivity. Qed.

Example scenario_print_words :
  text_of [Line "PRINT" ["hello"; "world"] "~"]
  = Return ("print(" ++ dquote ++ "hello world" ++ dquote ++ ")").
Proof. reflexivity. Qed.

Example scenario_set_add :
  text_of [Line "SET" ["result"; "add"; "2"; "3"] "~"]
  = Return "result = 2 + 3".
Proof. reflexivity. Qed.

Example scenario_else_without_terminator :
  text_of [Line "IF" ["x"; "是"; "1"] "~"; Line "PRINT" ["a"] "~";
           Line "ELSE" [] "~"; Line "PRINT" ["b"] "~"; BLOCK_END "~"]
  = Return (Py.join newline
              ["if x == 1:"; "    print(a)"; "else:"; "    print(b)"]).
Proof. reflexivity. Qed.

Example scenario_else_after_terminator :
  text_of [Line "IF" ["x"; "是"; "1"] "~"; Line "PRINT" ["a"] "~";
           BLOCK_END "~";
           Line "ELSE" [] "~"; Line "PRINT" ["b"] "~"; BLOCK_END "~"]
  = Return (Py.join newline
              ["if x == 1:"; "    print(a)"; "else:"; "    print(b)"]).
Proof. reflexivity. Qed.

Example scenario_add_arity :
  text_of [Line "ADD" ["r"; "1"] "~"]
  = Raise (MapErr
             "Arithmetic operation expects 3 arguments: result left right").
Proof. reflexivity. Qed.

Example scenario_parse_then_map :
  match Parser.parse_tokens
          [mkToken "定" ["f"; "n:"] "~"; mkToken "回" ["n"] "~";
           mkToken "终" [] "~"; mkToken "调" ["f"; "3"] ">"] with
  | inr program =>
      match map_program program with
      | Return (_, text) => Some text
      | Raise _ => None
      end
  | inl _ => None
  end
  = Some (Py.join newline ["def f(n):"; "    return n"; "f(3)"]).
Proof. reflexivity. Qed.

(** An Arrow between a terminator and else leaves the flag set, so else
    does not dedent again; a Block in its place clears the flag and else
    dedents a second time. *)
Example scenario_arrow_before_else :
  text_of [Line "DEF" ["f"] "~"; Line "IF" ["ok"; "x"] "~";
           Line "PASS" [] "~"; BLOCK_END "~"; Arrow "a" "b" "->" "~";
           Line "ELSE" [] "~"; Line "PASS" [] "~"]
  = Return (Py.join newline
              ["def f():"; "    if ok(x):"; "        pass"; "    else:";
               "        pass"])
  /\ text_of [Line "DEF" ["f"] "~"; Line "IF" ["ok"; "x"] "~";
              Line "PASS" [] "~"; BLOCK_END "~"; Block "a" [] "~";
              Line "ELSE" [] "~"; Line "PASS" [] "~"]
     = Return (Py.join newline
                 ["def f():"; "    if ok(x):"; "        pass"; "else:";
                  "    pass"]).
Proof. split; reflexivity. Qed.

End Scenarios.

(* ================================================================== *)
(** * Further properties of the parser *)
(* ================================================================== *)

Section ParserOrder.
Import Parser.

(** What a token gives does not depend on the accumulators: the same
    error, or the same node carrying the token's own line-state marker. *)
Lemma parse_token_node st token st' :
  parse_token st token = inr st' ->
  exists node,
    statements_of st' = (statements_of st ++ [node])%list
    /\ stmt_line_state node = tok_line_state token
    /\ forall st2, exists st2',
         parse_token st2 token = inr st2'
         /\ statements_of st2' = (statements_of st2 ++ [node])%list.
Proof.
  intros H.
  destruct (is_terminator token) eqn:Ht.
  - rewrite (parse_token_terminator _ _ Ht) in H. injection H as <-.
    eexists. split; [apply statements_append|]. split; [reflexivity|].
    intros st2. eexists. split; [apply (parse_token_terminator _ _ Ht)|].
    apply statements_append.
  - rewrite (parse_token_not_terminator _ _ Ht) in H.
    destruct (Py.in_list (tok_line_state token) LINE_STATES) eqn:Hv;
      [|rewrite (unstructured_invalid _ _ Hv) in H; discriminate].
    destruct (Py.endswith (raw_action token) ":") eqn:Hc.
    + rewrite (unstructured_header _ _ Hv Hc) in H. injection H as <-.
      eexists. split; [apply statements_append|]. split.
      * unfold header_node.
        repeat match goal with
               | |- context [if ?b then _ else _] => destruct b
               end; reflexivity.
      * intros st2. eexists. split.
        -- rewrite (parse_token_not_terminator _ _ Ht).
           apply (unstructured_header _ _ Hv Hc).
        -- apply statements_append.
    + destruct (arrow_marker token) as [arrow|] eqn:Ha.
      * destruct (unstructured_arrow st _ _ Hv Hc Ha) as (idx & Hidx & E).
        rewrite E in H. unfold arrow_result in H.
        destruct (List.length (raw_args token) <=? idx + 1)%nat eqn:Hl;
          [discriminate|].
        injection H as <-. eexists.
        split; [rewrite statements_closing; apply statements_append|].
        split; [destruct (String.eqb arrow "->"); reflexivity|].
        intros st2. eexists. split.
        -- rewrite (parse_token_not_terminator _ _ Ht).
           destruct (unstructured_arrow st2 _ _ Hv Hc Ha)
             as (idx2 & Hidx2 & E2).
           rewrite E2. unfold arrow_result.
           assert (idx2 = idx) by congruence. subst idx2.
           rewrite Hl. reflexivity.
        -- rewrite statements_closing. apply statements_append.
      * rewrite (unstructured_action _ _ Hv Hc Ha) in H.
        destruct (Py.dict_get (raw_action token) ACTION_LOOKUP) eqn:Hd;
          [|discriminate].
        injection H as <-. eexists.
        split; [rewrite statements_closing; apply statements_append|].
        split; [reflexivity|].
        intros st2. eexists. split.
        -- rewrite (parse_token_not_terminator _ _ Ht).
           rewrite (unstructured_action _ _ Hv Hc Ha), Hd. reflexivity.
        -- rewrite statements_closing. apply statements_append.
Qed.

Lemma parse_token_error st token e :
  parse_token st token = inl e ->
  forall st2, parse_token st2 token = inl e.
Proof.
  intros H st2.
  destruct (parse_token st2 token) as [e2|st2'] eqn:E2.
  - destruct (is_terminator token) eqn:Ht;
      [rewrite (parse_token_terminator _ _ Ht) in H; discriminate|].
    rewrite (parse_token_not_terminator st _ Ht) in H.
    rewrite (parse_token_not_terminator st2 _ Ht) in E2.
    destruct (Py.in_list (tok_line_state token) LINE_STATES) eqn:Hv;
      [|rewrite (unstructured_invalid st _ Hv) in H;
        rewrite (unstructured_invalid st2 _ Hv) in E2; congruence].
    destruct (Py.endswith (raw_action token) ":") eqn:Hc;
      [rewrite (unstructured_header _ _ Hv Hc) in H; discriminate|].
    destruct (arrow_marker token) as [arrow|] eqn:Ha.
    + destruct (unstructured_arrow st _ _ Hv Hc Ha) as (idx & Hidx & E).
      destruct (unstructured_arrow st2 _ _ Hv Hc Ha) as (idx2 & Hidx2 & E').
      assert (idx2 = idx) by congruence. subst idx2.
      rewrite E in H. rewrite E' in E2. unfold arrow_result in *.
      destruct (List.length (raw_args token) <=? idx + 1)%nat;
        [congruence | discriminate].
    + rewrite (unstructured_action st _ Hv Hc Ha) in H.
      rewrite (unstructured_action st2 _ Hv Hc Ha) in E2.
      destruct (Py.dict_get (raw_action token) ACTION_LOOKUP);
        [discriminate | congruence].
  - destruct (parse_token_node _ _ _ E2) as (node & _ & _ & Hall).
    destruct (Hall st) as (st' & E & _). congruence.
Qed.

(** The node a token gives when parsed on its own. *)
Definition gives (token : Token) (stmt : Statement) : Prop :=
  exists st, parse_token initial token = inr st
             /\ statements_of st = [stmt].

Lemma parse_loop_nodes tokens : forall st st',
  parse_loop st tokens = inr st' ->
  exists nodes,
    statements_of st' = (statements_of st ++ nodes)%list
    /\ Forall2 (fun token stmt =>
                  gives token stmt
                  /\ stmt_line_state stmt = tok_line_state token)
               tokens nodes.
Proof.
  induction tokens as [|token rest IH]; intros st st' H; cbn in H.
  - injection H as <-. exists []. split; [now rewrite app_nil_r|constructor].
  - destruct (parse_token st token) as [e|st1] eqn:E; [discriminate|].
    destruct (parse_token_node _ _ _ E) as (node & Hn & Hls & Hall).
    destruct (IH _ _ H) as (nodes & Hs & HF).
    exists (node :: nodes). split.
    + rewrite Hs, Hn, <- app_assoc. reflexivity.
    + constructor; [|exact HF]. split; [|exact Hls].
      destruct (Hall initial) as (st0 & E0 & S0). exists st0.
      split; [exact E0 | exact S0].
Qed.

Lemma parse_keeps_token_order_lemma tokens program :
  parse_tokens tokens = inr program ->
  Forall2 (fun token stmt =>
             gives token stmt
             /\ stmt_line_state stmt = tok_line_state token)
          tokens (program_statements program).
Proof.
  intros H. unfold parse_tokens in H.
  destruct (parse_loop initial tokens) as [e|st] eqn:E; [discriminate|].
  injection H as <-. rewrite finish_statements.
  destruct (parse_loop_nodes _ _ _ E) as (nodes & Hs & HF).
  cbn in Hs. now rewrite Hs.
Qed.

(** X1.  The statements of the parsed Program, read flow by flow and
    segment by segment, are one per token and in the order of the tokens:
    each is the node its token gives when parsed alone, and carries that
    token's line-state marker.  Cutting into segments neither drops nor
    reorders nor changes a statement. *)
Theorem parse_keeps_token_order :
  forall tokens program,
    parse_tokens tokens = inr program ->
    Forall2 (fun token stmt =>
               gives token stmt
               /\ stmt_line_state stmt = tok_line_state token)
            tokens (program_statements program).
Proof. exact parse_keeps_token_order_lemma. Qed.

Lemma parse_loop_error tokens : forall st e,
  parse_loop st tokens = inl e <->
  exists good bad rest,
    tokens = (good ++ bad :: rest)%list
    /\ Forall (fun token => exists st1, parse_token initial token = inr st1)
              good
    /\ parse_token initial bad = inl e.
Proof.
  induction tokens as [|token rest IH]; intros st e; cbn [parse_loop].
  - split; [discriminate|]. intros (good & bad & r & H & _).
    now destruct good.
  - destruct (parse_token st token) as [e1|st1] eqn:E.
    + split.
      * intros H. injection H as <-. exists [], token, rest.
        split; [reflexivity|]. split; [constructor|].
        apply (parse_token_error _ _ _ E).
      * intros (good & bad & r & H & Hg & Hb).
        destruct good as [|g good]; cbn in H; injection H as -> ->.
        -- rewrite (parse_token_error _ _ _ Hb st) in E. congruence.
        -- inversion Hg as [|? ? [st0 E0] ?]; subst.
           rewrite (parse_token_error _ _ _ E initial) in E0. discriminate.
    + rewrite IH. split.
      * intros (good & bad & r & -> & Hg & Hb).
        exists (token :: good), bad, r. split; [reflexivity|].
        split; [|exact Hb]. constructor; [|exact Hg].
        destruct (parse_token_node _ _ _ E) as (node & _ & _ & Hall).
        destruct (Hall initial) as (st0 & E0 & _). now exists st0.
      * intros (good & bad & r & H & Hg & Hb).
        destruct good as [|g good]; cbn in H; injection H as -> ->.
        -- rewrite (parse_token_error _ _ _ Hb st) in E. discriminate.
        -- exists good, bad, r. split; [reflexivity|].
           split; [now inversion Hg | exact Hb].
Qed.

(** X2.  parse_tokens fails exactly when some token fails on its own, and
    then with the error of the first such token: the tokens before it are
    all well formed, the tokens after it play no part, and no Program is
    returned. *)
Theorem parse_fails_at_first_bad_token :
  forall tokens e,
    parse_tokens tokens = inl e <->
    exists good bad rest,
      tokens = (good ++ bad :: rest)%list
      /\ Forall (fun token => exists st1, parse_token initial token = inr st1)
                good
      /\ parse_token initial bad = inl e.
Proof.
  intros tokens e. rewrite <- (parse_loop_error tokens initial e).
  unfold parse_tokens.
  destruct (parse_loop initial tokens); split; congruence.
Qed.

End ParserOrder.

Section ParserSegments.
Import Parser.

(** The segment ends with an Arrow or a Line marked with the closing
    symbol. *)
Definition ends_closed (seg : Segment) : Prop :=
  exists body stmt,
    seg_lines seg = (body ++ [stmt])%list
    /\ is_arrow_or_line stmt = true
    /\ stmt_line_state stmt = ">".

Lemma parse_token_ends_closed st token st' :
  parse_token st token = inr st' ->
  Forall ends_closed (flow_segments st) ->
  Forall ends_closed (flow_segments st').
Proof.
  intros H Inv. destruct (parse_token_effect _ _ _ H) as (node & [[_ ->]|R]).
  - exact Inv.
  - destruct R as (_ & _ & Hk & Hls & ->). unfold closing.
    destruct (String.eqb_spec (tok_line_state token) ">") as [E|_];
      [|exact Inv].
    cbn. apply Forall_app. split; [exact Inv|].
    constructor; [|constructor].
    exists (segment_lines st), node. cbn. repeat split; congruence.
Qed.

Lemma parse_loop_ends_closed tokens : forall st st',
  parse_loop st tokens = inr st' ->
  Forall ends_closed (flow_segments st) ->
  Forall ends_closed (flow_segments st').
Proof.
  induction tokens as [|token rest IH]; intros st st' H Inv; cbn in H.
  - now injection H as <-.
  - destruct (parse_token st token) as [e|st1] eqn:E; [discriminate|].
    apply (IH _ _ H). now apply (parse_token_ends_closed _ _ _ E).
Qed.

(** X3.  A parsed Program holds at most one Flow, and in it every Segment
    but the last ends with an Arrow or a Line whose line-state marker is
    the closing symbol: segments are cut only behind such a statement. *)
Theorem parsed_segments_end_closed :
  forall tokens program,
    parse_tokens tokens = inr program ->
    (List.length (flows program) <= 1)%nat
    /\ forall flow segs last_seg,
         In flow (flows program) ->
         segments flow = (segs ++ [last_seg])%list ->
         Forall ends_closed segs.
Proof.
  intros tokens program H. unfold parse_tokens in H.
  destruct (parse_loop initial tokens) as [e|st] eqn:E; [discriminate|].
  injection H as <-.
  assert (Inv : Forall ends_closed (flow_segments st))
    by (apply (parse_loop_ends_closed _ _ _ E); constructor).
  unfold finish.
  set (segs0 := match segment_lines st with
                | [] => flow_segments st
                | _ => (flow_segments st ++ [mkSegment (segment_lines st)])%list
                end).
  assert (Hs : forall segs last_seg,
             segs0 = (segs ++ [last_seg])%list -> Forall ends_closed segs).
  { intros segs last_seg Heq. subst segs0.
    destruct (segment_lines st).
    - rewrite Heq in Inv. now apply Forall_app in Inv as [Inv _].
    - apply app_inj_tail in Heq as [<- _]. exact Inv. }
  destruct segs0 as [|s0 rest]; cbn; split; try lia; try tauto.
  intros flow segs last_seg [<-|[]] Heq. cbn in Heq. now apply (Hs _ _ Heq).
Qed.

(** ** The keyword registries *)

Lemma build_lookup_sound ids word id :
  Py.dict_get word (build_lookup ids) = Some id ->
  exists words, In (id, words) ids /\ In word words.
Proof.
  unfold build_lookup.
  induction ids as [|[id0 words0] ids IH]; cbn [flat_map]; [discriminate|].
  induction words0 as [|w ws IHw]; cbn [map app Py.dict_get].
  - intros H. destruct (IH H) as (words & Hin & Hw).
    exists words. split; [now right | exact Hw].
  - destruct (String.eqb_spec w word) as [->|_].
    + intros H. injection H as <-. exists (word :: ws).
      split; [now left | now left].
    + intros H. destruct (IHw H) as (words & [Heq|Hin] & Hw).
      * injection Heq as <- <-. exists (w :: ws).
        split; [now left | now right].
      * exists words. split; [now right | exact Hw].
Qed.

Lemma dict_get_absent word (d : list (string * string)) :
  ~ In word (map fst d) -> Py.dict_get word d = None.
Proof.
  induction d as [|[k v] d IH]; cbn; [reflexivity|].
  intros H. destruct (String.eqb_spec k word) as [->|_]; [tauto|].
  apply IH. tauto.
Qed.

Lemma build_lookup_keys ids :
  map fst (build_lookup ids) = flat_map snd ids.
Proof.
  unfold build_lookup.
  induction ids as [|[id0 words0] ids IH]; cbn [flat_map]; [reflexivity|].
  rewrite map_app, IH, map_map. cbn. now rewrite map_id.
Qed.

Lemma dict_get_present word (d : list (string * string)) :
  In word (map fst d) -> exists v, Py.dict_get word d = Some v.
Proof.
  induction d as [|[k v] d IH]; cbn; [easy|].
  destruct (String.eqb_spec k word) as [->|Hne]; [eauto|].
  intros [H|H]; [contradiction | now apply IH].
Qed.

Lemma nodup_app_disjoint {A} (l1 l2 : list A) x :
  NoDup (l1 ++ l2) -> In x l1 -> In x l2 -> False.
Proof.
  induction l1 as [|a l1 IH]; cbn; [easy|].
  intros Hnd [->|H1] H2; inversion Hnd as [|? ? Hnot Hnd']; subst.
  - apply Hnot, in_or_app. now right.
  - now apply IH.
Qed.

Lemma listed_once (ids : list (string * list string)) word id1 ws1 id2 ws2 :
  NoDup (flat_map snd ids) ->
  In (id1, ws1) ids -> In word ws1 ->
  In (id2, ws2) ids -> In word ws2 ->
  id1 = id2.
Proof.
  induction ids as [|[id0 ws0] ids IH]; cbn [flat_map snd]; [easy|].
  intros Hnd [E1|H1] Hw1 [E2|H2] Hw2.
  - congruence.
  - injection E1 as -> ->. exfalso.
    apply (nodup_app_disjoint _ _ word Hnd Hw1).
    apply in_flat_map. now exists (id2, ws2).
  - injection E2 as -> ->. exfalso.
    apply (nodup_app_disjoint _ _ word Hnd Hw2).
    apply in_flat_map. now exists (id1, ws1).
  - apply IH; try assumption. now apply NoDup_app_remove_l in Hnd.
Qed.

(** X4.  When no word is listed twice in the table, the lookup built from
    it sends a word to an identifier exactly when the table lists the word
    among the spellings of that identifier: every spelling finds its
    identifier and nothing else does. *)
Theorem build_lookup_round_trip :
  forall ids,
    NoDup (flat_map snd ids) ->
    forall word id,
      Py.dict_get word (build_lookup ids) = Some id
      <-> exists words, In (id, words) ids /\ In word words.
Proof.
  intros ids Hnd word id. split; [apply build_lookup_sound|].
  intros (words & Hin & Hw).
  destruct (dict_get_present word (build_lookup ids)) as (v & Hv).
  { rewrite build_lookup_keys. apply in_flat_map. now exists (id, words). }
  destruct (build_lookup_sound _ _ _ Hv) as (words' & Hin' & Hw').
  now rewrite Hv, (listed_once ids word v words' id words Hnd Hin' Hw' Hin Hw).
Qed.

Fixpoint nodupb (l : list string) : bool :=
  match l with
  | [] => true
  | x :: rest => negb (Py.in_list x rest) && nodupb rest
  end.

Lemma nodupb_sound l : nodupb l = true -> NoDup l.
Proof.
  induction l as [|x rest IH]; cbn [nodupb]; [constructor|].
  intros H. apply andb_prop in H as [Hx Hr].
  constructor; [|now apply IH].
  intros Hin. apply negb_true_iff in Hx.
  assert (Py.in_list x rest = true); [|congruence].
  unfold Py.in_list. apply existsb_exists. exists x.
  split; [exact Hin | apply String.eqb_refl].
Qed.

Lemma action_words_listed_once : NoDup (flat_map snd ACTION_IDS).
Proof. apply nodupb_sound. vm_compute. reflexivity. Qed.

(** The three facts the action path needs of a spelling of the action
    table: it is no terminator, it has no trailing colon, and the lookup
    sends it to its identifier. *)
Lemma action_word_facts id words word :
  In (id, words) ACTION_IDS -> In word words ->
  Py.dict_get word STRUCT_LOOKUP = None
  /\ Py.endswith word ":" = false
  /\ Py.dict_get word ACTION_LOOKUP = Some id.
Proof.
  intros Hin Hw. cbn in Hin.
  repeat (destruct Hin as [Hin|Hin];
          [injection Hin as <- <-; cbn in Hw;
           repeat (destruct Hw as [<-|Hw];
                   [repeat split; vm_compute; reflexivity|]);
           contradiction|]).
  contradiction.
Qed.

(** X5.  Every spelling that the action table lists for an identifier,
    given as the keyword of a token with a valid line-state marker and no
    arrow marker among its arguments, gives the Line of that identifier
    with the token's arguments as they are: the spellings of one action
    are interchangeable, and none is taken for a terminator or a header. *)
Theorem action_spellings_interchangeable :
  forall id words word args line_state st,
    In (id, words) ACTION_IDS ->
    In word words ->
    Py.in_list line_state LINE_STATES = true ->
    Py.in_list "->" args = false ->
    Py.in_list "<-" args = false ->
    parse_token st (mkToken word args line_state)
    = inr (closing line_state
             (append_line st (Line id args line_state))).
Proof.
  intros id words word args line_state st Hin Hw Hv Hf Hb.
  destruct (action_word_facts _ _ _ Hin Hw) as (Hs & Hc & Hd).
  rewrite parse_token_not_terminator
    by (unfold is_terminator; cbn [raw_action]; now rewrite Hs).
  rewrite unstructured_action; cbn [raw_action raw_args tok_line_state];
    try assumption.
  - now rewrite Hd.
  - unfold arrow_marker. cbn [raw_args]. now rewrite Hf, Hb.
Qed.

End ParserSegments.

(* ================================================================== *)
(** * Further properties of the mapper *)
(* ================================================================== *)

(** ** Trailing colons *)

(** Whether the last character of [s] is [c]. *)
Fixpoint ends_with_char (c : ascii) (s : string) : bool :=
  match s with
  | EmptyString => false
  | String a s' =>
      match s' with
      | EmptyString => Ascii.eqb a c
      | String _ _ => ends_with_char c s'
      end
  end.

Lemma substring_none s : substring 0 0 s = EmptyString.
Proof. now destruct s. Qed.

Lemma endswith_one_char c s :
  Py.endswith s (String c EmptyString) = ends_with_char c s.
Proof.
  unfold Py.endswith. cbn [String.length].
  induction s as [|a s IH]; [reflexivity|].
  cbn [String.length Nat.leb andb Nat.sub]. rewrite Nat.sub_0_r.
  destruct s as [|b s'].
  - cbn. now destruct (Ascii.eqb a c).
  - cbn [String.length substring ends_with_char].
    cbn [String.length Nat.leb andb Nat.sub] in IH.
    now rewrite Nat.sub_0_r in IH.
Qed.

Lemma rstrip_not_ending c s : ends_with_char c (Py.rstrip c s) = false.
Proof.
  induction s as [|a s IH]; [reflexivity|]. cbn [Py.rstrip].
  destruct (String.eqb_spec (Py.rstrip c s) EmptyString) as [E|Hne].
  - rewrite E. destruct (Ascii.eqb a c) eqn:Ea; cbn; [reflexivity|exact Ea].
  - cbn [andb ends_with_char].
    destruct (Py.rstrip c s); [contradiction | exact IH].
Qed.

Lemma rstrip_unchanged c s :
  ends_with_char c s = false -> Py.rstrip c s = s.
Proof.
  induction s as [|a s IH]; [reflexivity|]. cbn [ends_with_char Py.rstrip].
  destruct s as [|b s'].
  - intros ->. reflexivity.
  - intros H. rewrite (IH H). reflexivity.
Qed.

Lemma rstrip_idempotent c s : Py.rstrip c (Py.rstrip c s) = Py.rstrip c s.
Proof. apply rstrip_unchanged, rstrip_not_ending. Qed.

Lemma last_item_set_last x xs v :
  Py.last_item (Py.set_last (x :: xs) v) = v.
Proof. unfold Py.last_item, Py.set_last. apply last_last. Qed.

Lemma set_last_nonempty x xs v :
  exists y ys, Py.set_last (x :: xs) v = y :: ys.
Proof.
  unfold Py.set_last. destruct (removelast (x :: xs)); cbn; eauto.
Qed.

(** The args list as [build_condition] leaves it. *)
Definition strip_last_colon (args : list string) : list string :=
  match args with
  | [] => args
  | _ =>
      if Py.endswith (Py.last_item args) ":"
      then Py.set_last args (Py.rstrip ":" (Py.last_item args))
      else args
  end.

Lemma strip_last_colon_idempotent args :
  strip_last_colon (strip_last_colon args) = strip_last_colon args.
Proof.
  destruct args as [|x xs]; [reflexivity|].
  unfold strip_last_colon at 2.
  destruct (Py.endswith (Py.last_item (x :: xs)) ":") eqn:E.
  - destruct (set_last_nonempty x xs (Py.rstrip ":" (Py.last_item (x :: xs))))
      as (y & ys & Hy).
    unfold strip_last_colon.
    pose proof (last_item_set_last x xs
                  (Py.rstrip ":" (Py.last_item (x :: xs)))) as Hl.
    rewrite Hy in *. rewrite Hl.
    change ":" with (String ":"%char EmptyString).
    rewrite endswith_one_char, rstrip_not_ending.
    change (String ":"%char EmptyString) with ":". now rewrite E.
  - unfold strip_last_colon. now rewrite E.
Qed.

Lemma strip_last_colon_nil args :
  strip_last_colon args = [] <-> args = [].
Proof.
  split; [|now intros ->].
  destruct args as [|x xs]; [reflexivity|]. unfold strip_last_colon.
  destruct (Py.endswith (Py.last_item (x :: xs)) ":"); [|discriminate].
  destruct (set_last_nonempty x xs (Py.rstrip ":" (Py.last_item (x :: xs))))
    as (y & ys & ->). discriminate.
Qed.

Section MapperComposition.
Context {builtins : PyBuiltins}.
Import Mapper.

Lemma build_condition_of_stripped args :
  build_condition args = build_condition (strip_last_colon args).
Proof.
  unfold build_condition. cbv zeta.
  change (match strip_last_colon args with
          | [] => strip_last_colon args
          | _ :: _ =>
              if Py.endswith (Py.last_item (strip_last_colon args)) ":"
              then Py.set_last (strip_last_colon args)
                     (Py.rstrip ":" (Py.last_item (strip_last_colon args)))
              else strip_last_colon args
          end) with (strip_last_colon (strip_last_colon args)).
  rewrite strip_last_colon_idempotent. reflexivity.
Qed.

Lemma build_condition_leaves args :
  fst (build_condition args) = strip_last_colon args.
Proof. rewrite build_condition_args. now destruct args. Qed.

(** ** What each action does *)

(** The actions whose header opens a block. *)
Definition opens_block (action : string) : bool :=
  Py.in_list action
    ["DEF"; "IF"; "ELIF"; "ELSE"; "WHILE"; "FOR"; "TRY"; "EXCEPT"; "FINALLY"].

(** The actions that hand their args to [build_condition]. *)
Definition builds_condition (action : string) : bool :=
  Py.in_list action ["IF"; "ELIF"; "WHILE"].

Ltac summary_done :=
  first [ eexists (Raise _); split;
          [intro; reflexivity | intros ? ? ? E; discriminate E]
        | eexists (Return (_, _, true)); split;
          [intro; reflexivity
          |intros ? ? ? E; injection E as <- <- <-; split; reflexivity]
        | eexists (Return (_, _, false)); split;
          [intro; reflexivity
          |intros ? ? ? E; injection E as <- <- <-; split; reflexivity] ].

Ltac summary_condition args :=
  destruct args as [|x xs];
  [ summary_done
  | pose proof (build_condition_leaves (x :: xs)) as Hb;
    destruct (build_condition (x :: xs)) as [a' c];
    cbn [fst] in Hb; subst a'; summary_done ].

(** Lowering a Line depends on the tracker only through the indentation
    in front of its one line; the line opens a block exactly for the nine
    header actions, and the args list is written exactly by the three
    actions that build a condition. *)
Lemma map_line_summary action args :
  exists o : Lowered,
    (forall ctx, map_line action args ctx = emit o ctx)
    /\ forall a t b,
         o = Return (a, t, b) ->
         b = opens_block action
         /\ a = if builds_condition action
                then strip_last_colon args else args.
Proof.
  unfold map_line.
  destruct (String.eqb_spec action "DEF") as [->|_];
    [unfold map_def; destruct args; summary_done|].
  destruct (String.eqb_spec action "IF") as [->|_];
    [unfold map_if; summary_condition args|].
  destruct (String.eqb_spec action "ELIF") as [->|_];
    [unfold map_elif; summary_condition args|].
  destruct (String.eqb_spec action "ELSE") as [->|_];
    [unfold map_else; summary_done|].
  destruct (String.eqb_spec action "WHILE") as [->|_];
    [unfold map_while; summary_condition args|].
  destruct (String.eqb_spec action "FOR") as [->|_];
    [unfold map_for; destruct (List.length args <? 3)%nat; summary_done|].
  destruct (String.eqb_spec action "TRY") as [->|_];
    [unfold map_try; summary_done|].
  destruct (String.eqb_spec action "EXCEPT") as [->|_];
    [unfold map_except; destruct args; summary_done|].
  destruct (String.eqb_spec action "FINALLY") as [->|_];
    [unfold map_finally; summary_done|].
  destruct (String.eqb_spec action "RETURN") as [->|_]; [summary_done|].
  destruct (String.eqb_spec action "BREAK") as [->|_]; [summary_done|].
  destruct (String.eqb_spec action "CONTINUE") as [->|_]; [summary_done|].
  destruct (String.eqb_spec action "PASS") as [->|_]; [summary_done|].
  destruct (String.eqb_spec action "PRINT") as [->|_]; [summary_done|].
  destruct (String.eqb_spec action "SET") as [->|_];
    [destruct (map_set args); summary_done|].
  destruct (String.eqb_spec action "CALL") as [->|_];
    [destruct (map_call args); summary_done|].
  destruct (String.eqb_spec action "ADD") as [->|_];
    [destruct (map_arithmetic args "+"); summary_done|].
  destruct (String.eqb_spec action "SUB") as [->|_];
    [destruct (map_arithmetic args "-"); summary_done|].
  destruct (String.eqb_spec action "MUL") as [->|_];
    [destruct (map_arithmetic args "*"); summary_done|].
  destruct (String.eqb_spec action "DIV") as [->|_];
    [destruct (map_arithmetic args "/"); summary_done|].
  summary_done.
Qed.

(** The context in which the header or statement of a Line is built. *)
Definition base_context (action : string) (ctx : IndentContext)
  : IndentContext :=
  if is_continuation action && negb (last_was_block_end ctx)
  then Ctx.dedent_ctx ctx else ctx.

(** X6.  A Line that is lowered without error emits exactly one line: the
    indentation of the depth at which it is built (the current depth, or
    one less, not below zero, for a continuation keyword that follows no
    terminator), then a text.  It leaves the depth one above that for the
    nine block headers and equal to it for every other action, and the
    flag cleared. *)
Theorem line_depth_protocol :
  forall action args line_state ctx stmt' lines,
    outcome_of (map_statement (Line action args line_state) ctx)
      = Return (stmt', lines) ->
    ctx_of (map_statement (Line action args line_state) ctx)
      = mkCtx (level (base_context action ctx)
               + (if opens_block action then 1 else 0)) false
    /\ exists text,
         lines = [Py.str_mul indent_str (level (base_context action ctx))
                  ++ text].
Proof.
  intros action args line_state ctx stmt' lines.
  destruct (map_line_summary action args) as (o & Ho & Hs).
  unfold map_statement, bind, base_context.
  rewrite tracking_unfold. unfold after_dedent. rewrite !Ho.
  destruct o as [[[a t] b]|e];
    [destruct (Hs _ _ _ eq_refl) as [-> _] | ];
    destruct (is_continuation action && negb (last_was_block_end ctx));
    unfold emit; try destruct (opens_block action); cbn;
    intros E; try discriminate E; injection E as <- <-;
    (split; [f_equal; lia | eexists; reflexivity]).
Qed.

(** ** The tree and the lines after a statement *)

(** A statement as generation leaves it. *)
Definition after_generation (stmt : Statement) : Statement :=
  match stmt with
  | Line action args line_state =>
      if builds_condition action
      then Line action (strip_last_colon args) line_state
      else stmt
  | _ => stmt
  end.

Definition is_line (stmt : Statement) : bool :=
  match stmt with Line _ _ _ => true | _ => false end.

Lemma map_statement_result stmt ctx stmt' lines :
  outcome_of (map_statement stmt ctx) = Return (stmt', lines) ->
  stmt' = after_generation stmt
  /\ List.length lines = if is_line stmt then 1%nat else O.
Proof.
  destruct stmt as [action args ls|n inner ls|src dst d ls|ls|t];
    try (cbn; intros E; injection E as <- <-; split; reflexivity);
    [|discriminate].
  destruct (map_line_summary action args) as (o & Ho & Hs).
  unfold map_statement, bind. rewrite tracking_unfold.
  unfold after_dedent. rewrite !Ho.
  destruct o as [[[a t] b]|e].
  - assert (Ha : Line action a ls = after_generation (Line action args ls)).
    { destruct (Hs _ _ _ eq_refl) as [_ ->]. unfold after_generation.
      destruct (builds_condition action); reflexivity. }
    clear Hs.
    destruct (is_continuation action && negb (last_was_block_end ctx));
      unfold emit; destruct b; cbn;
      intros E; injection E as <- <-; (split; [exact Ha|reflexivity]).
  - destruct (is_continuation action && negb (last_was_block_end ctx));
      cbn; discriminate.
Qed.

Lemma map_line_of_stripped action args ctx :
  builds_condition action = true ->
  map_line action (strip_last_colon args) ctx = map_line action args ctx.
Proof.
  intros Hb.
  assert (Hcase : action = "IF" \/ action = "ELIF" \/ action = "WHILE").
  { unfold builds_condition, Py.in_list in Hb. cbn in Hb.
    destruct (String.eqb_spec action "IF"); [tauto|].
    destruct (String.eqb_spec action "ELIF"); [tauto|].
    destruct (String.eqb_spec action "WHILE"); [tauto|discriminate]. }
  destruct args as [|x xs]; [reflexivity|].
  pose proof (build_condition_of_stripped (x :: xs)) as Hbc.
  destruct (strip_last_colon (x :: xs)) as [|y ys] eqn:Es;
    [apply (proj1 (strip_last_colon_nil _)) in Es; discriminate Es|].
  destruct Hcase as [->|[->| ->]]; unfold map_line; cbn;
    unfold map_if, map_elif, map_while; now rewrite Hbc.
Qed.

(** Lowering the statement that generation left gives what lowering the
    statement itself gave. *)
Lemma map_statement_after_generation stmt ctx :
  map_statement (after_generation stmt) ctx = map_statement stmt ctx.
Proof.
  destruct stmt as [action args ls| | | |]; try reflexivity.
  unfold after_generation.
  destruct (builds_condition action) eqn:Hb; [|reflexivity].
  unfold map_statement, bind. rewrite !tracking_unfold.
  unfold after_dedent. now rewrite !(map_line_of_stripped _ _ _ Hb).
Qed.

(** ** Segments and flows are transparent to generation *)

(** One run, then a second from the context the first left; the calls,
    the statements and the lines are concatenated, the first error ends
    the whole. *)
Definition then_run
  (r1 : list TrackerCall * IndentContext
        * Outcome (list Statement * list string))
  (m2 : Gen (list Statement * list string))
  : list TrackerCall * IndentContext
    * Outcome (list Statement * list string) :=
  match r1 with
  | (calls1, ctx1, Return (stmts1, lines1)) =>
      match m2 ctx1 with
      | (calls2, ctx2, Return (stmts2, lines2)) =>
          ((calls1 ++ calls2)%list, ctx2,
           Return ((stmts1 ++ stmts2)%list, (lines1 ++ lines2)%list))
      | (calls2, ctx2, Raise e) => ((calls1 ++ calls2)%list, ctx2, Raise e)
      end
  | (calls1, ctx1, Raise e) => (calls1, ctx1, Raise e)
  end.

Lemma map_lines_app stmts1 stmts2 : forall ctx,
  map_lines (stmts1 ++ stmts2)%list ctx
  = then_run (map_lines stmts1 ctx) (map_lines stmts2).
Proof.
  induction stmts1 as [|stmt rest IH]; intros ctx.
  - cbn [app map_lines]. unfold then_run, ret.
    destruct (map_lines stmts2 ctx) as [[c cx] [[l n]|e]]; reflexivity.
  - cbn [app map_lines]. unfold bind.
    destruct (map_statement stmt ctx) as [[c0 cx0] [[s0 n0]|e0]];
      [|reflexivity].
    rewrite IH. unfold then_run, ret.
    destruct (map_lines rest cx0) as [[c1 cx1] [[l1 n1]|e1]]; cbn;
      [|now rewrite ?app_nil_r].
    destruct (map_lines stmts2 cx1) as [[c2 cx2] [[l2 n2]|e2]]; cbn;
      now rewrite ?app_nil_r, ?app_assoc.
Qed.

(** The run of a loop over a tree, seen as a run over statements. *)
Definition flattened {T} (flat : T -> list Statement)
  (r : list TrackerCall * IndentContext * Outcome (T * list string))
  : list TrackerCall * IndentContext
    * Outcome (list Statement * list string) :=
  match r with
  | (calls, ctx, Return (tree, lines)) => (calls, ctx, Return (flat tree, lines))
  | (calls, ctx, Raise e) => (calls, ctx, Raise e)
  end.

Lemma map_segments_flat segs : forall ctx,
  map_lines (flat_map seg_lines segs) ctx
  = flattened (flat_map seg_lines) (map_segments segs ctx).
Proof.
  induction segs as [|seg rest IH]; intros ctx; [reflexivity|].
  cbn [flat_map map_segments]. rewrite map_lines_app.
  unfold map_segment, bind, then_run, flattened, ret.
  destruct (map_lines (seg_lines seg) ctx) as [[c1 cx1] [[l1 n1]|e1]];
    [|reflexivity].
  rewrite IH. unfold flattened. cbn.
  destruct (map_segments rest cx1) as [[c2 cx2] [[l2 n2]|e2]]; cbn;
    now rewrite ?app_nil_r.
Qed.

Definition flow_statements (fls : list Flow) : list Statement :=
  flat_map (fun flow => flat_map seg_lines (segments flow)) fls.

Lemma map_flows_flat fls : forall ctx,
  map_lines (flow_statements fls) ctx
  = flattened flow_statements (map_flows fls ctx).
Proof.
  unfold flow_statements.
  induction fls as [|flow rest IH]; intros ctx; [reflexivity|].
  cbn [flat_map map_flows]. rewrite map_lines_app, map_segments_flat.
  unfold map_flow, bind, then_run, flattened, ret.
  destruct (map_segments (segments flow) ctx) as [[c1 cx1] [[l1 n1]|e1]];
    [|reflexivity].
  rewrite IH. unfold flattened. cbn.
  destruct (map_flows rest cx1) as [[c2 cx2] [[l2 n2]|e2]]; cbn;
    now rewrite ?app_nil_r.
Qed.

(** X7.  Generation does not see the cut of a Program into flows and
    segments: lowering the flows of a Program makes the calls, leaves the
    tracker and gives the lines or the error that lowering its statements
    as one list does, and the statements it leaves are the same. *)
Theorem generation_ignores_segmentation :
  forall program ctx,
    map_lines (program_statements program) ctx
    = flattened flow_statements (map_flows (flows program) ctx).
Proof. intros program ctx. apply map_flows_flat. Qed.

(** ** The Program after generation *)

Definition after_generation_segment (seg : Segment) : Segment :=
  mkSegment (map after_generation (seg_lines seg)).

Definition after_generation_flow (flow : Flow) : Flow :=
  mkFlow (map after_generation_segment (segments flow)).

Definition after_generation_program (program : Program) : Program :=
  mkProgram (map after_generation_flow (flows program)).

Lemma map_lines_result stmts : forall ctx stmts' lines,
  outcome_of (map_lines stmts ctx) = Return (stmts', lines) ->
  stmts' = map after_generation stmts
  /\ List.length lines = List.length (filter is_line stmts).
Proof.
  induction stmts as [|stmt rest IH]; intros ctx stmts' lines.
  - cbn. intros E. injection E as <- <-. split; reflexivity.
  - cbn [map_lines]. unfold bind.
    destruct (map_statement stmt ctx) as [[c0 cx0] [[s0 n0]|e0]] eqn:E0;
      [|discriminate].
    destruct (map_statement_result stmt ctx s0 n0) as [-> Hn0];
      [now rewrite E0|].
    destruct (map_lines rest cx0) as [[c1 cx1] [[l1 n1]|e1]] eqn:E1;
      [|discriminate].
    destruct (IH cx0 l1 n1) as [-> Hn1]; [now rewrite E1|].
    cbn. intros E. injection E as <- <-. split; [reflexivity|].
    rewrite length_app, Hn0, Hn1. now destruct (is_line stmt).
Qed.

Lemma map_segments_result segs : forall ctx segs' lines,
  outcome_of (map_segments segs ctx) = Return (segs', lines) ->
  segs' = map after_generation_segment segs.
Proof.
  induction segs as [|seg rest IH]; intros ctx segs' lines.
  - cbn. intros E. now injection E as <- <-.
  - cbn [map_segments]. unfold map_segment, bind.
    destruct (map_lines (seg_lines seg) ctx)
      as [[c0 cx0] [[s0 n0]|e0]] eqn:E0; [|discriminate].
    destruct (map_lines_result (seg_lines seg) ctx s0 n0) as [-> _];
      [now rewrite E0|].
    cbn.
    destruct (map_segments rest cx0) as [[c1 cx1] [[l1 n1]|e1]] eqn:E1;
      [|discriminate].
    rewrite (IH cx0 l1 n1) by now rewrite E1.
    cbn. intros E. now injection E as <- <-.
Qed.

Lemma map_flows_result fls : forall ctx fls' lines,
  outcome_of (map_flows fls ctx) = Return (fls', lines) ->
  fls' = map after_generation_flow fls.
Proof.
  induction fls as [|flow rest IH]; intros ctx fls' lines.
  - cbn. intros E. now injection E as <- <-.
  - cbn [map_flows]. unfold map_flow, bind.
    destruct (map_segments (segments flow) ctx)
      as [[c0 cx0] [[s0 n0]|e0]] eqn:E0; [|discriminate].
    rewrite (map_segments_result (segments flow) ctx s0 n0)
      by now rewrite E0.
    cbn.
    destruct (map_flows rest cx0) as [[c1 cx1] [[l1 n1]|e1]] eqn:E1;
      [|discriminate].
    rewrite (IH cx0 l1 n1) by now rewrite E1.
    cbn. intros E. now injection E as <- <-.
Qed.

Lemma map_lines_after_generation stmts : forall ctx,
  map_lines (map after_generation stmts) ctx = map_lines stmts ctx.
Proof.
  induction stmts as [|stmt rest IH]; intros ctx; [reflexivity|].
  cbn [map map_lines]. unfold bind.
  rewrite map_statement_after_generation.
  destruct (map_statement stmt ctx) as [[c0 cx0] [[s0 n0]|e0]];
    [|reflexivity].
  now rewrite IH.
Qed.

Lemma map_segments_after_generation segs : forall ctx,
  map_segments (map after_generation_segment segs) ctx
  = map_segments segs ctx.
Proof.
  induction segs as [|seg rest IH]; intros ctx; [reflexivity|].
  cbn [map map_segments]. unfold map_segment, bind.
  cbn [after_generation_segment seg_lines].
  rewrite map_lines_after_generation.
  destruct (map_lines (seg_lines seg) ctx) as [[c0 cx0] [[s0 n0]|e0]];
    [|reflexivity].
  cbn. now rewrite IH.
Qed.

Lemma map_flows_after_generation fls : forall ctx,
  map_flows (map after_generation_flow fls) ctx = map_flows fls ctx.
Proof.
  induction fls as [|flow rest IH]; intros ctx; [reflexivity|].
  cbn [map map_flows]. unfold map_flow, bind.
  cbn [after_generation_flow segments].
  rewrite map_segments_after_generation.
  destruct (map_segments (segments flow) ctx) as [[c0 cx0] [[s0 n0]|e0]];
    [|reflexivity].
  cbn. now rewrite IH.
Qed.

Lemma map_program_inversion program program' text :
  map_program program = Return (program', text) ->
  exists fls lines,
    outcome_of (map_flows (flows program) new_context) = Return (fls, lines)
    /\ program' = mkProgram fls
    /\ text = Py.join newline lines.
Proof.
  unfold map_program, map_program_run, bind, outcome_of.
  destruct (map_flows (flows program) new_context)
    as [[c cx] [[fls lines]|e]]; [|discriminate].
  cbn. intros E. injection E as <- <-. now exists fls, lines.
Qed.

Lemma map_lines_per_statement stmts : forall ctx stmts' lines,
  outcome_of (map_lines stmts ctx) = Return (stmts', lines) ->
  exists per,
    lines = List.concat per
    /\ Forall2 (fun stmt emitted =>
                  (exists c stmt0,
                      outcome_of (map_statement stmt c)
                      = Return (stmt0, emitted))
                  /\ List.length emitted
                     = if is_line stmt then 1%nat else O)
               stmts per.
Proof.
  induction stmts as [|stmt rest IH]; intros ctx stmts' lines.
  - cbn. intros E. injection E as <- <-. exists []. split; [reflexivity|].
    constructor.
  - cbn [map_lines]. unfold bind.
    destruct (map_statement stmt ctx) as [[c0 cx0] [[s0 n0]|e0]] eqn:E0;
      [|discriminate].
    assert (H0 : outcome_of (map_statement stmt ctx) = Return (s0, n0))
      by now rewrite E0.
    destruct (map_lines rest cx0) as [[c1 cx1] [[l1 n1]|e1]] eqn:E1;
      [|discriminate].
    destruct (IH cx0 l1 n1) as (per & -> & HF); [now rewrite E1|].
    cbn. intros E. injection E as <- <-. exists (n0 :: per).
    split; [reflexivity|]. constructor; [|exact HF]. split.
    + now exists ctx, s0.
    + now destruct (map_statement_result _ _ _ _ H0).
Qed.

(** The text is made of the lines that the statements of the Program
    emit, statement by statement and in order: [per] holds, for each
    statement, the lines it emitted when it was lowered. *)
Definition emitted_line_by_line (program : Program) (text : string) : Prop :=
  exists per : list (list string),
    text = Py.join newline (List.concat per)
    /\ (exists fls,
          outcome_of (map_flows (flows program) new_context)
          = Return (fls, List.concat per))
    /\ Forall2 (fun stmt emitted =>
                  (exists c stmt0,
                      outcome_of (map_statement stmt c)
                      = Return (stmt0, emitted))
                  /\ List.length emitted
                     = if is_line stmt then 1%nat else O)
               (program_statements program) per
    /\ List.length (List.concat per)
       = List.length (filter is_line (program_statements program)).

(** X8.  When map_program returns, its text is the lines that the mapper
    emitted, joined by line feeds, and these lines are, in order, what
    each statement of the Program emitted: exactly one line for each Line
    statement and none for an Arrow, a Block or a BLOCK_END.  So there are
    as many lines as Line statements. *)
Theorem one_line_per_line_statement :
  forall program program' text,
    map_program program = Return (program', text) ->
    emitted_line_by_line program text.
Proof.
  intros program program' text H.
  destruct (map_program_inversion _ _ _ H) as (fls & lines & E & _ & ->).
  pose proof (map_flows_flat (flows program) new_context) as F.
  destruct (map_flows (flows program) new_context)
    as [[c cx] [[fls0 lines0]|e]] eqn:Efl; [|discriminate].
  cbn in E. injection E as -> ->. cbn in F.
  assert (Hflat : outcome_of (map_lines (flow_statements (flows program))
                                new_context)
                  = Return (flow_statements fls, lines))
    by now rewrite F.
  destruct (map_lines_per_statement _ _ _ _ Hflat) as (per & -> & HF).
  destruct (map_lines_result _ _ _ _ Hflat) as [_ Hn].
  exists per. split; [reflexivity|]. split; [|split].
  - exists fls. now rewrite Efl.
  - exact HF.
  - exact Hn.
Qed.

(** X9.  The tree that map_program leaves is the Program it was given
    with one change only: in each Line whose action is IF, ELIF or WHILE
    the last argument has lost its trailing colons.  Flows, segments,
    the other statements and all other arguments are as before. *)
Theorem generation_changes_only_condition_colons :
  forall program program' text,
    map_program program = Return (program', text) ->
    program' = after_generation_program program.
Proof.
  intros program program' text H.
  destruct (map_program_inversion _ _ _ H) as (fls & lines & E & -> & _).
  unfold after_generation_program. f_equal.
  now apply (map_flows_result _ _ _ _ E).
Qed.

(** X10.  Generation gives the same result on the tree it left as on the
    Program it was given: a second map_program on that tree returns the
    same text and leaves the tree unchanged. *)
Theorem generation_is_idempotent :
  forall program program' text,
    map_program program = Return (program', text) ->
    map_program program' = Return (program', text).
Proof.
  intros program program' text H.
  destruct (map_program_inversion _ _ _ H) as (fls & lines & E & Hp & _).
  rewrite Hp at 1. rewrite (map_flows_result _ _ _ _ E).
  unfold map_program, map_program_run, bind in *.
  cbn [flows]. now rewrite map_flows_after_generation.
Qed.

(** ** The first statement that fails *)

Definition lowers_alone (stmt : Statement) : Prop :=
  exists r, outcome_of (map_statement stmt new_context) = Return r.

Lemma statement_raises_anywhere stmt c1 c2 e :
  outcome_of (map_statement stmt c1) = Raise e ->
  outcome_of (map_statement stmt c2) = Raise e.
Proof.
  intros H. pose proof (alike_map_statement stmt c1 c2) as A.
  rewrite H in A. unfold same_fate in A.
  destruct (outcome_of (map_statement stmt c2)); [contradiction|congruence].
Qed.

Lemma statement_returns_anywhere stmt c1 c2 r :
  outcome_of (map_statement stmt c1) = Return r ->
  exists r', outcome_of (map_statement stmt c2) = Return r'.
Proof.
  intros H. pose proof (alike_map_statement stmt c1 c2) as A.
  rewrite H in A. unfold same_fate in A.
  destruct (outcome_of (map_statement stmt c2)); [eauto|contradiction].
Qed.

Lemma map_lines_error stmts : forall ctx e,
  outcome_of (map_lines stmts ctx) = Raise e <->
  exists good bad rest,
    stmts = (good ++ bad :: rest)%list
    /\ Forall lowers_alone good
    /\ outcome_of (map_statement bad new_context) = Raise e.
Proof.
  induction stmts as [|stmt rest IH]; intros ctx e.
  - split; [discriminate|]. intros (good & bad & r & H & _).
    now destruct good.
  - cbn [map_lines]. unfold bind.
    destruct (map_statement stmt ctx) as [[c0 cx0] [[s0 n0]|e0]] eqn:E0.
    + assert (Hret : outcome_of (map_statement stmt ctx) = Return (s0, n0))
        by now rewrite E0.
      specialize (IH cx0 e).
      destruct (map_lines rest cx0) as [[c1 cx1] [[l1 n1]|e1]] eqn:E1.
      * split; [discriminate|].
        intros (good & bad & r & H & Hg & Hb).
        destruct good as [|g good]; cbn in H; injection H as -> ->.
        -- rewrite (statement_raises_anywhere _ _ ctx _ Hb) in Hret.
           discriminate.
        -- assert (Raise e = Return (l1, n1)); [|discriminate].
           symmetry. apply IH. exists good, bad, r.
           split; [reflexivity|]. split; [now inversion Hg | exact Hb].
      * cbn. split.
        -- intros E. injection E as ->.
           destruct (proj1 IH eq_refl) as (good & bad & r & -> & Hg & Hb).
           exists (stmt :: good), bad, r. split; [reflexivity|].
           split; [|exact Hb]. constructor; [|exact Hg].
           apply (statement_returns_anywhere _ _ new_context _ Hret).
        -- intros (good & bad & r & H & Hg & Hb).
           destruct good as [|g good]; cbn in H; injection H as -> ->.
           ++ rewrite (statement_raises_anywhere _ _ ctx _ Hb) in Hret.
              discriminate.
           ++ apply IH. exists good, bad, r.
              split; [reflexivity|]. split; [now inversion Hg | exact Hb].
    + assert (Hr : outcome_of (map_statement stmt ctx) = Raise e0)
        by now rewrite E0.
      cbn. split.
      * intros E. injection E as ->. exists [], stmt, rest.
        split; [reflexivity|]. split; [constructor|].
        apply (statement_raises_anywhere _ _ _ _ Hr).
      * intros (good & bad & r & H & Hg & Hb).
        destruct good as [|g good]; cbn in H; injection H as -> ->.
        -- rewrite (statement_raises_anywhere _ _ ctx _ Hb) in Hr.
           congruence.
        -- inversion Hg as [|? ? [r0 Hr0] ?]; subst.
           rewrite (statement_raises_anywhere _ _ new_context _ Hr) in Hr0.
           discriminate.
Qed.

Lemma map_program_error program e :
  map_program program = Raise e <->
  outcome_of (map_lines (program_statements program) new_context) = Raise e.
Proof.
  change (program_statements program)
    with (flow_statements (flows program)).
  rewrite map_flows_flat.
  unfold map_program, map_program_run, bind, outcome_of, flattened.
  destruct (map_flows (flows program) new_context)
    as [[c cx] [[fls lines]|e0]]; cbn; split; congruence.
Qed.

(** X11.  map_program raises exactly when some statement of the Program
    raises when lowered on its own, and then it raises the error of the
    first such statement: the statements before it all lower, and neither
    they nor the depth they leave change the error. *)
Theorem generation_fails_at_first_bad_statement :
  forall program e,
    map_program program = Raise e <->
    exists good bad rest,
      program_statements program = (good ++ bad :: rest)%list
      /\ Forall lowers_alone good
      /\ outcome_of (map_statement bad new_context) = Raise e.
Proof.
  intros program e. rewrite map_program_error. apply map_lines_error.
Qed.

End MapperComposition.

(* ================================================================== *)
(** * What the parser builds, the mapper takes *)
(* ================================================================== *)

(** The nodes the parser can build. *)
Definition parsed_shape (stmt : Statement) : Prop :=
  match stmt with
  | Line action _ _ => In action (map fst Parser.ACTION_IDS)
  | Block _ inner _ => inner = []
  | Arrow _ _ direction _ => direction = "->" \/ direction = "<-"
  | BLOCK_END _ => True
  | Other _ => False
  end.

Lemma gives_parsed_shape token stmt : gives token stmt -> parsed_shape stmt.
Proof.
  intros (st & H & Hs).
  destruct (is_terminator token) eqn:Ht.
  - rewrite (parse_token_terminator _ _ Ht) in H. injection H as <-.
    cbn in Hs. injection Hs as <-. exact I.
  - rewrite (parse_token_not_terminator _ _ Ht) in H.
    destruct (Py.in_list (tok_line_state token) Parser.LINE_STATES) eqn:Hv;
      [|rewrite (unstructured_invalid _ _ Hv) in H; discriminate].
    destruct (Py.endswith (raw_action token) ":") eqn:Hc.
    + rewrite (unstructured_header _ _ Hv Hc) in H. injection H as <-.
      cbn in Hs. injection Hs as <-. unfold header_node.
      repeat match goal with
             | |- context [if ?b then _ else _] => destruct b
             end; cbn; tauto.
    + destruct (arrow_marker token) as [arrow|] eqn:Ha.
      * destruct (unstructured_arrow Parser.initial _ _ Hv Hc Ha)
          as (idx & _ & E).
        rewrite E in H. unfold arrow_result in H.
        destruct (List.length (raw_args token) <=? idx + 1)%nat;
          [discriminate|].
        injection H as <-. rewrite statements_closing in Hs.
        cbn in Hs.
        assert (Hd : arrow = "->" \/ arrow = "<-").
        { unfold arrow_marker in Ha.
          destruct (Py.in_list "->" (raw_args token));
            [injection Ha as <-; now left|].
          destruct (Py.in_list "<-" (raw_args token));
            [injection Ha as <-; now right | discriminate]. }
        destruct (String.eqb arrow "->"); injection Hs as <-; exact Hd.
      * rewrite (unstructured_action _ _ Hv Hc Ha) in H.
        destruct (Py.dict_get (raw_action token) Parser.ACTION_LOOKUP)
          as [action_id|] eqn:Hd; [|discriminate].
        injection H as <-. rewrite statements_closing in Hs.
        cbn in Hs. injection Hs as <-.
        destruct (build_lookup_sound _ _ _ Hd) as (words & Hin & _).
        cbn [parsed_shape]. apply in_map_iff. now exists (action_id, words).
Qed.

Lemma parsed_statements_shape tokens program :
  Parser.parse_tokens tokens = inr program ->
  Forall parsed_shape (program_statements program).
Proof.
  intros H. pose proof (parse_keeps_token_order_lemma tokens program H) as F.
  revert F. generalize (program_statements program). clear H.
  induction tokens as [|token rest IH]; intros stmts F;
    inversion F as [|? stmt ? ? [Hg _] Hrest]; subst; constructor.
  - now apply (gives_parsed_shape token).
  - now apply IH.
Qed.

Section ParserToMapper.
Context {builtins : PyBuiltins}.
Import Mapper.

(** The two errors that report a node the mapper does not know. *)
Definition unknown_node_error (e : MapError) : bool :=
  match e with
  | MapErr msg =>
      prefix "Unknown statement type" msg || prefix "Unhandled ActionID" msg
  end.

Ltac known_error :=
  cbn; intros E; try discriminate E; injection E as <-; reflexivity.

Lemma map_set_known args e :
  map_set args = Raise e -> unknown_node_error e = false.
Proof.
  unfold map_set.
  repeat match goal with
         | |- context [if ?b then _ else _] => destruct b
         | |- context [match map ?f ?l with _ => _ end] => destruct (map f l)
         end; known_error.
Qed.

Lemma map_call_known args e :
  map_call args = Raise e -> unknown_node_error e = false.
Proof. destruct args; known_error. Qed.

Lemma map_arithmetic_known args op e :
  map_arithmetic args op = Raise e -> unknown_node_error e = false.
Proof.
  unfold map_arithmetic.
  destruct args as [|a [|b [|c [|d rest]]]]; try known_error.
  destruct (negb (is_valid_identifier a)); known_error.
Qed.

Ltac known_condition args :=
  destruct args as [|x xs];
  [ known_error
  | match goal with
    | |- context [build_condition ?a] => destruct (build_condition a)
    end; known_error ].

Ltac known_lifted lemma :=
  match goal with
  | |- context [lift ?o] =>
      let Hl := fresh "Hlift" in
      destruct o eqn:Hl; [known_error|];
      cbn; intros E'; injection E' as <-; now apply lemma in Hl
  end.

Lemma map_line_known action args ctx e :
  In action (map fst Parser.ACTION_IDS) ->
  outcome_of (map_line action args ctx) = Raise e ->
  unknown_node_error e = false.
Proof.
  intros Hin. cbn in Hin. unfold map_line, outcome_of, bind, keeping,
    Ctx.get_indent.
  repeat (destruct Hin as [<-|Hin]; [cbn [String.eqb Ascii.eqb Bool.eqb]|]);
    [ | | | | | | | | | | | | | | | | | | | | contradiction].
  - known_error.
  - known_lifted map_set_known.
  - known_lifted map_call_known.
  - unfold map_def. destruct args; known_error.
  - known_error.
  - unfold map_if. known_condition args.
  - unfold map_elif. known_condition args.
  - unfold map_else. known_error.
  - unfold map_while. known_condition args.
  - unfold map_for. destruct (List.length args <? 3)%nat; known_error.
  - known_error.
  - known_error.
  - unfold map_try. known_error.
  - unfold map_except. destruct args; known_error.
  - unfold map_finally. known_error.
  - known_error.
  - known_lifted map_arithmetic_known.
  - known_lifted map_arithmetic_known.
  - known_lifted map_arithmetic_known.
  - known_lifted map_arithmetic_known.
Qed.

Lemma map_statement_known stmt ctx e :
  parsed_shape stmt ->
  outcome_of (map_statement stmt ctx) = Raise e ->
  unknown_node_error e = false.
Proof.
  destruct stmt as [action args ls| | | |]; cbn [parsed_shape];
    try discriminate; [|contradiction].
  intros Hin. unfold map_statement, bind. rewrite tracking_unfold.
  destruct (is_continuation action && negb (last_was_block_end ctx)).
  - unfold after_dedent.
    destruct (map_line action args (Ctx.dedent_ctx ctx))
      as [[c cx] [[a r]|e0]] eqn:E; [discriminate|].
    cbn. intros H. injection H as <-.
    apply (map_line_known action args (Ctx.dedent_ctx ctx) _ Hin).
    now rewrite E.
  - destruct (map_line action args ctx) as [[c cx] [[a r]|e0]] eqn:E;
      [discriminate|].
    cbn. intros H. injection H as <-.
    apply (map_line_known action args ctx _ Hin). now rewrite E.
Qed.

(** X12.  Every statement of a parsed Program is of a kind the mapper
    knows: a Line whose action is an identifier of the action table, a
    Block with no inner lines, an Arrow in one of the two directions, or
    a BLOCK_END.  So when map_program raises on a parsed Program, the
    error is never the one for an unknown statement type nor the one for
    an unhandled action. *)
Theorem parsed_program_is_known_to_mapper :
  forall tokens program,
    Parser.parse_tokens tokens = inr program ->
    Forall parsed_shape (program_statements program)
    /\ forall e, map_program program = Raise e ->
                 unknown_node_error e = false.
Proof.
  intros tokens program H.
  pose proof (parsed_statements_shape tokens program H) as Hshape.
  split; [exact Hshape|].
  intros e He. apply map_program_error, map_lines_error in He.
  destruct He as (good & bad & rest & Hs & _ & Hb).
  apply (map_statement_known bad new_context); [|exact Hb].
  rewrite Forall_forall in Hshape. apply Hshape. rewrite Hs.
  apply in_or_app. right. now left.
Qed.

End ParserToMapper.

(* ================================================================== *)
(** * The lowering rules one by one *)
(* ================================================================== *)

(** ** String literals *)

(** Reading back an escaped text: the character after a backslash is
    taken as it is.  [pending] tells that a backslash was just read. *)
Fixpoint unescape_from (pending : bool) (s : string) : string :=
  match s with
  | EmptyString => EmptyString
  | String c s' =>
      if pending then String c (unescape_from false s')
      else if Ascii.eqb c backslash then unescape_from true s'
      else String c (unescape_from false s')
  end.

Lemma unescape_escape s : unescape_from false (escape_literal s) = s.
Proof.
  induction s as [|c s IH]; [reflexivity|].
  cbn [escape_literal]. unfold escape_char.
  destruct (Ascii.eqb c backslash) eqn:Eb.
  - apply Ascii.eqb_eq in Eb. subst c. cbn. now rewrite IH.
  - destruct (Ascii.eqb c dquote_char) eqn:Eq.
    + apply Ascii.eqb_eq in Eq. subst c. cbn. now rewrite IH.
    + cbn [append unescape_from]. rewrite Eb. now rewrite IH.
Qed.

Lemma append_cancel_r (x y tail : string) :
  x ++ tail = y ++ tail -> x = y.
Proof.
  assert (Hlen : forall a b, String.length (a ++ b)
                             = (String.length a + String.length b)%nat).
  { induction a as [|c a IHa]; intros b; cbn; [reflexivity|].
    now rewrite IHa. }
  revert y. induction x as [|c x IH]; intros [|d y] H; cbn in H.
  - reflexivity.
  - apply (f_equal String.length) in H. cbn in H. rewrite Hlen in H. lia.
  - apply (f_equal String.length) in H. cbn in H. rewrite Hlen in H. lia.
  - injection H as -> H. now rewrite (IH _ H).
Qed.

Lemma append_cancel_l (head x y : string) :
  head ++ x = head ++ y -> x = y.
Proof.
  induction head as [|c head IH]; cbn; [trivial|].
  intros H. injection H as H. now apply IH.
Qed.

Section Lowerings.
Context {builtins : PyBuiltins}.
Import Mapper.

(** X13.  The escaping of PRINT loses nothing: two texts that get the
    same escaped form are the same text, so two PRINT lines of several
    arguments give the same statement only if their arguments, joined by
    spaces, are the same text. *)
Theorem print_literal_is_injective :
  (forall a b,
      Py.replace dquote ("\" ++ dquote) (Py.replace "\" "\\" a)
      = Py.replace dquote ("\" ++ dquote) (Py.replace "\" "\\" b) ->
      a = b)
  /\ (forall a1 a2 rest1 b1 b2 rest2,
        map_print (a1 :: a2 :: rest1) = map_print (b1 :: b2 :: rest2) ->
        Py.join " " (a1 :: a2 :: rest1) = Py.join " " (b1 :: b2 :: rest2)).
Proof.
  assert (Hinj : forall a b,
             Py.replace dquote ("\" ++ dquote) (Py.replace "\" "\\" a)
             = Py.replace dquote ("\" ++ dquote) (Py.replace "\" "\\" b) ->
             a = b).
  { intros a b H. rewrite !escaped_is_escape_literal in H.
    now rewrite <- (unescape_escape a), <- (unescape_escape b), H. }
  split; [exact Hinj|].
  intros a1 a2 rest1 b1 b2 rest2. unfold map_print.
  cbn [List.length Nat.eqb andb]. intros H.
  apply Hinj.
  apply append_cancel_l in H. apply append_cancel_l in H.
  now apply append_cancel_r in H.
Qed.

(** ** SET and the arithmetic actions *)

Definition arithmetic_actions : list (string * string) :=
  [("ADD", "+"); ("SUB", "-"); ("MUL", "*"); ("DIV", "/")].

(** X14.  A SET whose second argument is an operator alias and an
    arithmetic action with the same operator are lowered to the same
    line: with a valid target, [SET target alias left right] and
    [ACTION target left right] give the same text at the same
    indentation and leave the tracker alone. *)
Theorem set_alias_is_arithmetic_action :
  forall action sym op target lhs rhs ctx,
    In (action, sym) arithmetic_actions ->
    arith_symbol op = Some sym ->
    is_valid_identifier target = true ->
    map_set [target; op; lhs; rhs] = map_arithmetic [target; lhs; rhs] sym
    /\ exists line,
         map_line "SET" [target; op; lhs; rhs] ctx
           = ([], ctx, Return ([target; op; lhs; rhs], [line]))
         /\ map_line action [target; lhs; rhs] ctx
            = ([], ctx, Return ([target; lhs; rhs], [line])).
Proof.
  intros action sym op target lhs rhs ctx Hin Hop Hid.
  pose proof (map_set_alias_four target op lhs rhs sym Hop Hid) as Hset.
  assert (Har : map_arithmetic [target; lhs; rhs] sym
                = Return (target ++ " = " ++ to_py_value lhs ++ " " ++ sym
                                 ++ " " ++ to_py_value rhs)).
  { unfold map_arithmetic. now rewrite Hid. }
  split; [congruence|].
  eexists. split.
  - rewrite map_line_set, Hset. reflexivity.
  - cbn in Hin.
    destruct Hin as [E|[E|[E|[E|[]]]]]; injection E as <- <-;
      unfold map_line, bind, lift, Ctx.get_indent;
      cbn [String.eqb Ascii.eqb Bool.eqb]; rewrite Har; reflexivity.
Qed.

(** ** The two value lowerings *)

(** X15.  In a condition a token is lowered as everywhere else, except
    that the comparison and logic operators stay as they are and the words
    quit and exit are quoted: for every other token the two lowerings
    agree, provided the four builtin names that to_py_value passes through
    are identifiers. *)
Theorem condition_lowering_agrees :
  forall symbol,
    Py.in_list symbol ["=="; "!="; ">"; "<"; ">="; "<="; "or"; "and"] = false ->
    Py.in_list symbol ["quit"; "exit"] = false ->
    (Py.in_list symbol ["input"; "float"; "int"; "str"] = true ->
     is_valid_identifier symbol = true) ->
    to_py_value_for_condition symbol = to_py_value symbol.
Proof.
  intros symbol Hop Hq Hb. unfold to_py_value_for_condition, to_py_value.
  rewrite Hop, Hq.
  destruct (String.eqb symbol ""); [reflexivity|].
  destruct (Py.in_list symbol ["True"; "真"]); [reflexivity|].
  destruct (Py.in_list symbol ["False"; "假"]); [reflexivity|].
  destruct (String.eqb symbol "None"); [reflexivity|].
  destruct (is_numeric symbol); [reflexivity|].
  destruct (Py.in_list symbol ["input"; "float"; "int"; "str"]);
    [now rewrite Hb | reflexivity].
Qed.

(** ** FOR *)

(** X16.  FOR needs three arguments.  With the word in second, the
    iterable is every argument after it; without it, every argument after
    the variable; in both cases joined by spaces and without trailing
    colons.  So [FOR v in a b] and [FOR v a b] give the same header, but
    [FOR v a], one iterable token and no in, is refused. *)
Theorem for_header :
  (forall args ctx,
      (List.length args < 3)%nat ->
      map_for args ctx = ([], ctx, Raise (MapErr "FOR expects: variable in iterable")))
  /\ (forall var first rest ctx,
        map_for (var :: "in" :: first :: rest) ctx
        = ([CallIndent (level ctx + 1)],
           mkCtx (level ctx + 1) (last_was_block_end ctx),
           Return [Py.str_mul indent_str (level ctx) ++ "for " ++ var
                   ++ " in " ++ Py.rstrip ":" (Py.join " " (first :: rest))
                   ++ ":"]))
  /\ (forall var first second rest ctx,
        first <> "in" ->
        map_for (var :: first :: second :: rest) ctx
        = map_for (var :: "in" :: first :: second :: rest) ctx)
  /\ (forall var first ctx, raises (outcome_of (map_for [var; first] ctx))).
Proof.
  split; [|split; [|split]].
  - intros args ctx H. unfold map_for.
    apply Nat.ltb_lt in H. now rewrite H.
  - intros. reflexivity.
  - intros var first second rest ctx Hne. unfold map_for.
    cbn [List.length Nat.ltb Nat.leb nth skipn].
    apply String.eqb_neq in Hne. rewrite Hne. reflexivity.
  - intros. eexists. reflexivity.
Qed.

(** ** Conditions and the trailing colon *)

(** X17.  The trailing colons of the last argument play no part in the
    lowering of IF, ELIF and WHILE: with or without them the run is the
    same, the same header, the same calls and the same args list left. *)
Theorem condition_ignores_trailing_colons :
  forall action args ctx,
    builds_condition action = true ->
    build_condition args = build_condition (strip_last_colon args)
    /\ map_line action args ctx = map_line action (strip_last_colon args) ctx.
Proof.
  intros action args ctx H. split.
  - apply build_condition_of_stripped.
  - symmetry. now apply map_line_of_stripped.
Qed.

(** ** Which Lines can fail *)

Lemma line_raises_iff action args line_state ctx ctx0 :
  raises (outcome_of (map_statement (Line action args line_state) ctx))
  <-> raises (outcome_of (map_line action args ctx0)).
Proof.
  destruct (map_line_lowered action args) as (o & Ho).
  unfold map_statement, bind, raises. rewrite tracking_unfold.
  unfold after_dedent. rewrite !Ho.
  destruct (is_continuation action && negb (last_was_block_end ctx));
    unfold emit; destruct o as [[[a t] [|]]|e]; cbn;
    split; intros [e' E]; try discriminate E; eauto.
Qed.

(** X18.  When the lowering of a Line fails.  ELSE, TRY, EXCEPT, FINALLY,
    RETURN, BREAK, CONTINUE, PASS and PRINT never fail, whatever their
    arguments.  DEF, IF, ELIF, WHILE and CALL fail exactly when there is
    no argument, FOR exactly when there are fewer than three, and the four
    arithmetic actions exactly unless there are three arguments the first
    of which is a valid identifier. *)
Theorem line_failure_conditions :
  forall action args line_state ctx,
    (In action ["ELSE"; "TRY"; "EXCEPT"; "FINALLY"; "RETURN"; "BREAK";
                "CONTINUE"; "PASS"; "PRINT"] ->
     ~ raises (outcome_of (map_statement (Line action args line_state) ctx)))
    /\ (In action ["DEF"; "IF"; "ELIF"; "WHILE"; "CALL"] ->
        (raises (outcome_of (map_statement (Line action args line_state) ctx))
         <-> args = []))
    /\ (action = "FOR" ->
        (raises (outcome_of (map_statement (Line action args line_state) ctx))
         <-> (List.length args < 3)%nat))
    /\ (In action ["ADD"; "SUB"; "MUL"; "DIV"] ->
        (raises (outcome_of (map_statement (Line action args line_state) ctx))
         <-> ~ (List.length args = 3%nat
                /\ is_valid_identifier (nth 0 args "") = true))).
Proof.
  intros action args line_state ctx.
  rewrite (line_raises_iff action args line_state ctx new_context).
  unfold raises. split; [|split; [|split]].
  - intros Hin [e E]. cbn in Hin.
    repeat (destruct Hin as [<-|Hin];
            [revert E; unfold map_line, map_else, map_try, map_except,
               map_finally; try destruct args; discriminate|]).
    contradiction.
  - intros Hin. cbn in Hin.
    repeat (destruct Hin as [<-|Hin];
            [unfold map_line, map_def, map_if, map_elif, map_while, map_call;
             destruct args as [|x xs];
             [split; [reflexivity | intros _; eexists; reflexivity]
             |try destruct (build_condition (x :: xs));
              split; [intros [e E]; discriminate E | discriminate]]|]).
    contradiction.
  - intros ->. unfold map_line, map_for, outcome_of, bind, keeping.
    cbn [String.eqb Ascii.eqb Bool.eqb].
    destruct (List.length args <? 3)%nat eqn:El.
    + apply Nat.ltb_lt in El.
      split; [trivial | intros _; eexists; reflexivity].
    + apply Nat.ltb_ge in El.
      split; [intros [e E]; discriminate E | lia].
  - intros Hin. cbn in Hin.
    repeat (destruct Hin as [<-|Hin];
            [unfold map_line, map_arithmetic, outcome_of, bind, lift; cbn;
             destruct args as [|a [|b [|c [|d rest]]]]; cbn;
             try (split; [intros _ [H _]; discriminate H
                         |intros _; eexists; reflexivity]);
             destruct (is_valid_identifier a); cbn;
             (split; [intros [e E]; try discriminate E; intros [_ H];
                      discriminate H
                     |intros H; try (exfalso; apply H; split; reflexivity);
                      eexists; reflexivity])|]).
    contradiction.
Qed.

(** ** DEF, EXCEPT and the trailing colon *)

(** X20.  The trailing colons of the arguments of DEF and EXCEPT play no
    part: the function name, every parameter and the exception name are
    taken without them, so the arguments with their trailing colons
    removed give the same run. *)
Theorem def_and_except_ignore_trailing_colons :
  forall args ctx,
    map_def (map (Py.rstrip ":") args) ctx = map_def args ctx
    /\ map_except (map (Py.rstrip ":") args) ctx = map_except args ctx.
Proof.
  intros args ctx. destruct args as [|x xs]; [split; reflexivity|].
  unfold map_def, map_except. cbn [map nth skipn List.length].
  rewrite rstrip_idempotent, length_map, map_map.
  rewrite (map_ext _ _ (fun a => rstrip_idempotent ":" a)).
  split; reflexivity.
Qed.

End Lowerings.

(* ================================================================== *)
(** * tools/catapillar.py: the choice of the pipeline *)
(* ================================================================== *)

Module Driver.

(** [_iter_lines_from_ast(ast)]: the statements in the order the
    generator yields them. *)
Definition iter_lines_from_ast (ast : Program) : list Statement :=
  flat_map (fun flow =>
              flat_map (fun seg => seg_lines seg) (segments flow))
           (flows ast).

(** [_ast_contains_legacy_lines(ast)] *)
Definition ast_contains_legacy_lines (ast : Program) : bool :=
  existsb (fun stmt =>
             match stmt with
             | Line _ _ _ => true
             | Block _ inner _ =>
                 existsb (fun s => match s with
                                   | Line _ _ _ => true
                                   | _ => false
                                   end) inner
             | _ => false
             end)
          (iter_lines_from_ast ast).

(** [_ast_contains_arrows(ast)] *)
Definition ast_contains_arrows (ast : Program) : bool :=
  existsb (fun stmt => match stmt with
                       | Arrow _ _ _ _ => true
                       | _ => false
                       end)
          (iter_lines_from_ast ast).

(** The pipeline [main] chooses for a mode; [None] when it reports an
    unknown mode and exits. *)
Definition chosen (mode : string) (has_legacy has_arrows : bool)
  : option string :=
  if negb (Py.in_list mode ["auto"; "flow"; "python"]) then None
  else if String.eqb mode "auto" then
    if has_arrows then Some "flow"
    else if has_legacy then Some "python"
    else Some "flow"
  else Some mode.

(** The pipeline chosen for a Program. *)
Definition pipeline (mode : string) (ast : Program) : option string :=
  chosen mode (ast_contains_legacy_lines ast) (ast_contains_arrows ast).

End Driver.

Section DriverProperties.

Definition is_arrow (stmt : Statement) : bool :=
  match stmt with Arrow _ _ _ _ => true | _ => false end.

Lemma legacy_of_parsed stmts :
  Forall parsed_shape stmts ->
  existsb (fun stmt =>
             match stmt with
             | Line _ _ _ => true
             | Block _ inner _ =>
                 existsb (fun s => match s with
                                   | Line _ _ _ => true
                                   | _ => false
                                   end) inner
             | _ => false
             end) stmts
  = existsb is_line stmts.
Proof.
  induction 1 as [|stmt rest Hs _ IH]; [reflexivity|].
  cbn [existsb]. rewrite IH. f_equal.
  destruct stmt; try reflexivity. cbn in Hs. now subst.
Qed.

(** X19.  In auto mode the driver sends a parsed Program to the Python
    generator exactly when the Program holds a Line and holds no Arrow; a
    Program that holds an Arrow goes to the flow runtime even when it
    holds Lines too, and so does a Program with neither.  A mode given as
    flow or python is followed whatever the Program holds, and auto never
    ends in the unknown-mode exit. *)
Theorem auto_mode_prefers_arrows :
  forall tokens program,
    Parser.parse_tokens tokens = inr program ->
    (Driver.pipeline "auto" program = Some "python"
     <-> existsb is_line (program_statements program) = true
         /\ existsb is_arrow (program_statements program) = false)
    /\ (Driver.pipeline "auto" program = Some "flow"
        <-> existsb is_arrow (program_statements program) = true
            \/ existsb is_line (program_statements program) = false)
    /\ Driver.pipeline "flow" program = Some "flow"
    /\ Driver.pipeline "python" program = Some "python".
Proof.
  intros tokens program H.
  pose proof (parsed_statements_shape _ _ H) as Hshape.
  unfold Driver.pipeline, Driver.chosen, Driver.ast_contains_legacy_lines,
    Driver.ast_contains_arrows.
  change (Driver.iter_lines_from_ast program)
    with (program_statements program).
  rewrite (legacy_of_parsed _ Hshape).
  change (existsb (fun stmt => match stmt with
                               | Arrow _ _ _ _ => true
                               | _ => false
                               end) (program_statements program))
    with (existsb is_arrow (program_statements program)).
  cbn [Py.in_list existsb String.eqb Ascii.eqb Bool.eqb orb negb].
  destruct (existsb is_arrow (program_statements program)),
           (existsb is_line (program_statements program));
    intuition (discriminate || congruence).
Qed.

End DriverProperties.

(* ================================================================== *)
(** * Instances of the further properties *)
(* ================================================================== *)

Lemma parse_keeps_token_order_witness :
  Forall2 (fun token stmt =>
             gives token stmt
             /\ stmt_line_state stmt = tok_line_state token)
          [mkToken "print" ["a"] ">"; mkToken "end" [] "zz"]
          [Line "PRINT" ["a"] ">"; BLOCK_END "zz"].
Proof.
  exact (parse_keeps_token_order
           [mkToken "print" ["a"] ">"; mkToken "end" [] "zz"] _ eq_refl).
Defined.

Lemma parsed_segments_end_closed_witness :
  Forall ends_closed [mkSegment [Block "f" [] "~"; Line "PRINT" ["a"] ">"]].
Proof.
  exact (proj2 (parsed_segments_end_closed
                  [mkToken "f:" [] "~"; mkToken "print" ["a"] ">";
                   mkToken "end" [] ">"] _ eq_refl)
               _ [mkSegment [Block "f" [] "~"; Line "PRINT" ["a"] ">"]]
               (mkSegment [BLOCK_END ">"]) (or_introl eq_refl) eq_refl).
Defined.

Lemma build_lookup_round_trip_witness :
  Py.dict_get "又若" (Parser.build_lookup Parser.ACTION_IDS) = Some "ELIF"
  <-> exists words,
        In ("ELIF", words) Parser.ACTION_IDS /\ In "又若" words.
Proof.
  exact (build_lookup_round_trip Parser.ACTION_IDS action_words_listed_once
           "又若" "ELIF").
Defined.

Lemma action_spellings_interchangeable_witness :
  Parser.parse_token Parser.initial (mkToken "又若" ["x"] "~")
  = Parser.parse_token Parser.initial (mkToken "elif" ["x"] "~").
Proof.
  rewrite (action_spellings_interchangeable "ELIF" ["elif"; "又若"] "又若"
             ["x"] "~" Parser.initial);
    [|cbn; tauto|cbn; tauto|reflexivity|reflexivity|reflexivity].
  reflexivity.
Defined.

Lemma line_depth_protocol_witness :
  Mapper.ctx_of
    (@Mapper.map_statement Reference.builtins (Line "ELSE" [] "~")
       (Mapper.mkCtx 2 false))
  = Mapper.mkCtx 2 false.
Proof.
  exact (proj1 (@line_depth_protocol Reference.builtins "ELSE" [] "~"
                  (Mapper.mkCtx 2 false) _ _ eq_refl)).
Defined.

Lemma one_line_per_line_statement_witness :
  @emitted_line_by_line Reference.builtins
    (mkProgram [mkFlow [mkSegment
       [Line "PRINT" ["x"] "~"; BLOCK_END "~"; Arrow "A" "B" "->" "~"]]])
    "print(x)".
Proof.
  exact (@one_line_per_line_statement Reference.builtins
           (mkProgram [mkFlow [mkSegment
              [Line "PRINT" ["x"] "~"; BLOCK_END "~";
               Arrow "A" "B" "->" "~"]]]) _ _ eq_refl).
Defined.

Lemma generation_changes_only_condition_colons_witness :
  mkProgram [mkFlow [mkSegment
     [Line "IF" ["x"; "是"; "1"] "~"; Line "PASS" [] "~"]]]
  = after_generation_program
      (mkProgram [mkFlow [mkSegment
         [Line "IF" ["x"; "是"; "1:"] "~"; Line "PASS" [] "~"]]]).
Proof.
  exact (@generation_changes_only_condition_colons Reference.builtins
           (mkProgram [mkFlow [mkSegment
              [Line "IF" ["x"; "是"; "1:"] "~"; Line "PASS" [] "~"]]])
           _ _ eq_refl).
Defined.

Lemma generation_is_idempotent_witness :
  exists text,
    @Mapper.map_program Reference.builtins
      (mkProgram [mkFlow [mkSegment
         [Line "IF" ["x"; "是"; "1"] "~"; Line "PASS" [] "~"]]])
    = Mapper.Return
        (mkProgram [mkFlow [mkSegment
           [Line "IF" ["x"; "是"; "1"] "~"; Line "PASS" [] "~"]]], text).
Proof.
  eexists.
  exact (@generation_is_idempotent Reference.builtins
           (mkProgram [mkFlow [mkSegment
              [Line "IF" ["x"; "是"; "1:"] "~"; Line "PASS" [] "~"]]])
           _ _ eq_refl).
Defined.

Lemma parsed_program_is_known_to_mapper_witness :
  Forall parsed_shape
    [Line "IF" ["x"] "~"; Block "f" [] "~"; Arrow "B" "A" "<-" "~";
     BLOCK_END "~"].
Proof.
  exact (proj1 (@parsed_program_is_known_to_mapper Reference.builtins
                  [mkToken "若" ["x"] "~"; mkToken "f:" [] "~";
                   mkToken "A" ["<-"; "B"] "~"; mkToken "终" [] "~"]
                  _ eq_refl)).
Defined.

Lemma set_alias_is_arithmetic_action_witness :
  @Mapper.map_set Reference.builtins ["total"; "乘"; "price"; "3"]
  = @Mapper.map_arithmetic Reference.builtins ["total"; "price"; "3"] "*".
Proof.
  exact (proj1 (@set_alias_is_arithmetic_action Reference.builtins
                  "MUL" "*" "乘" "total" "price" "3" Mapper.new_context
                  ltac:(cbn; tauto) eq_refl eq_refl)).
Defined.

Lemma condition_lowering_agrees_witness :
  @Mapper.to_py_value_for_condition Reference.builtins "count"
  = @Mapper.to_py_value Reference.builtins "count".
Proof.
  exact (@condition_lowering_agrees Reference.builtins "count"
           eq_refl eq_refl (fun _ => eq_refl)).
Defined.

Lemma condition_ignores_trailing_colons_witness :
  @Mapper.map_line Reference.builtins "WHILE" ["x"; "<"; "3::"]
    Mapper.new_context
  = @Mapper.map_line Reference.builtins "WHILE" ["x"; "<"; "3"]
      Mapper.new_context.
Proof.
  exact (proj2 (@condition_ignores_trailing_colons Reference.builtins
                  "WHILE" ["x"; "<"; "3::"] Mapper.new_context eq_refl)).
Defined.

Lemma auto_mode_prefers_arrows_witness :
  Driver.pipeline "auto"
    (mkProgram [mkFlow [mkSegment
       [Line "PRINT" ["a"] "~"; Arrow "A" "B" "->" "~"]]])
  = Some "flow".
Proof.
  exact (proj2 (proj1 (proj2
           (auto_mode_prefers_arrows
              [mkToken "print" ["a"] "~"; mkToken "A" ["->"; "B"] "~"]
              _ eq_refl)))
           (or_introl eq_refl)).
Defined.

(* ================================================================== *)
(** * The tracker along a run of statements *)
(* ================================================================== *)

Section TrackerRuns.
Context {builtins : PyBuiltins}.
Import Mapper.

(** ** The statement before a continuation keyword *)

(** How often lowering a Line calls dedent, for any action. *)
Lemma dedent_calls_of_line action args line_state ctx :
  dedent_calls (calls_of (map_statement (Line action args line_state) ctx))
  = if is_continuation action && negb (last_was_block_end ctx)
    then 1%nat else O.
Proof.
  destruct (map_line_lowered action args) as (o & Ho).
  unfold map_statement, bind. rewrite tracking_unfold.
  unfold after_dedent. rewrite !Ho.
  destruct (is_continuation action && negb (last_was_block_end ctx));
    unfold emit, Ctx.set_last_was_block_end, ret;
    destruct o as [[[a t] [|]]|e]; reflexivity.
Qed.

Lemma after_block_end_and_arrow ls1 src dst direction ls2 ctx :
  ctx_of (map_lines [BLOCK_END ls1; Arrow src dst direction ls2] ctx)
  = mkCtx (level (Ctx.dedent_ctx ctx)) true.
Proof. reflexivity. Qed.

Lemma after_block_end_and_block ls1 name inner ls2 ctx :
  ctx_of (map_lines [BLOCK_END ls1; Block name inner ls2] ctx)
  = mkCtx (level (Ctx.dedent_ctx ctx)) false.
Proof. reflexivity. Qed.

(** C1, on the code.  A continuation keyword (ELIF, ELSE, EXCEPT,
    FINALLY) whose preceding statement is an Arrow that itself follows a
    BLOCK_END calls dedent not at all, although the statement before it
    is no BLOCK_END: the Arrow left last_was_block_end set.  With a Block
    in the place of the Arrow the keyword calls dedent once, as it does
    after a Line. *)
Theorem continuation_after_arrow_makes_no_dedent :
  forall action args line_state ctx,
    is_continuation action = true ->
    (forall ls1 src dst direction ls2,
        dedent_calls
          (calls_of
             (map_statement (Line action args line_state)
                (ctx_of (map_lines
                           [BLOCK_END ls1; Arrow src dst direction ls2]
                           ctx)))) = O)
    /\ (forall ls1 name inner ls2,
          dedent_calls
            (calls_of
               (map_statement (Line action args line_state)
                  (ctx_of (map_lines
                             [BLOCK_END ls1; Block name inner ls2]
                             ctx)))) = 1%nat)
    /\ (forall prev_action prev_args prev_ls prev' lines,
          outcome_of (map_statement (Line prev_action prev_args prev_ls) ctx)
            = Return (prev', lines) ->
          dedent_calls
            (calls_of
               (map_statement (Line action args line_state)
                  (ctx_of (map_statement
                             (Line prev_action prev_args prev_ls) ctx))))
          = 1%nat)
    /\ (forall ls1,
          dedent_calls
            (calls_of
               (map_statement (Line action args line_state)
                  (ctx_of (map_statement (BLOCK_END ls1) ctx)))) = O).
Proof.
  intros action args line_state ctx Hk. split; [|split; [|split]].
  - intros. rewrite dedent_calls_of_line, after_block_end_and_arrow, Hk.
    reflexivity.
  - intros. rewrite dedent_calls_of_line, after_block_end_and_block, Hk.
    reflexivity.
  - intros prev_action prev_args prev_ls prev' lines H.
    rewrite dedent_calls_of_line, Hk.
    now rewrite (flag_after_statement _ _ _ _ H).
  - intros. rewrite dedent_calls_of_line, Hk. reflexivity.
Qed.

(** ** More terminators than open blocks, from any depth *)

Lemma dedent_above_zero ctx :
  (0 < level ctx)%Z ->
  Ctx.dedent ctx
  = ([CallDedent (level ctx - 1)],
     mkCtx (level ctx - 1) (last_was_block_end ctx), Return tt).
Proof.
  intros H. unfold Ctx.dedent, Ctx.dedent_ctx.
  destruct (Z.gtb_spec (level ctx) 0) as [_|Hle]; [reflexivity | lia].
Qed.

Lemma level_after_dedent ctx :
  level (Ctx.dedent_ctx ctx)
  = if (level ctx >? 0)%Z then (level ctx - 1)%Z else level ctx.
Proof. unfold Ctx.dedent_ctx. now destruct (level ctx >? 0)%Z. Qed.

(** From a depth of at most [n], [n] terminators bring the depth to zero
    and emit nothing; the statements after them are lowered from depth
    zero. *)
Lemma block_ends_from_depth ls rest : forall n ctx,
  (0 <= level ctx <= Z.of_nat n)%Z ->
  exists calls ctx',
    level ctx' = 0%Z
    /\ map_lines (repeat (BLOCK_END ls) n ++ rest)%list ctx
       = match map_lines rest ctx' with
         | (c, cx, o) =>
             ((calls ++ c)%list, cx,
              match o with
              | Return (r, lines) =>
                  Return ((repeat (BLOCK_END ls) n ++ r)%list, lines)
              | Raise e => Raise e
              end)
         end.
Proof.
  induction n as [|n IH]; intros ctx H.
  - exists [], ctx. split; [cbn in H; lia|]. cbn [repeat app].
    destruct (map_lines rest ctx) as [[c cx] [[r l]|e]]; reflexivity.
  - assert (H1 : (0 <= level (mkCtx (level (Ctx.dedent_ctx ctx)) true)
                  <= Z.of_nat n)%Z).
    { cbn [level]. rewrite level_after_dedent.
      destruct (Z.gtb_spec (level ctx) 0); lia. }
    destruct (IH _ H1) as (calls & ctx' & H' & E).
    exists (CallDedent (level (Ctx.dedent_ctx ctx)) :: calls), ctx'.
    split; [exact H'|].
    cbn [repeat app map_lines]. unfold bind at 1.
    rewrite block_end_run. unfold bind at 1. rewrite E.
    destruct (map_lines rest ctx') as [[c cx] [[r l]|e]];
      unfold ret; cbn [app]; rewrite ?app_nil_r; reflexivity.
Qed.

(** After at least as many terminators as the depth, a Line is lowered
    with no indentation. *)
Lemma line_after_terminators n ls action args line_state ctx :
  (0 <= level ctx <= Z.of_nat n)%Z ->
  exists o : Lowered,
    (forall c, map_line action args c = emit o c)
    /\ outcome_of
         (map_lines (repeat (BLOCK_END ls) n
                     ++ [Line action args line_state])%list ctx)
       = match o with
         | Return (args', text, _) =>
             Return ((repeat (BLOCK_END ls) n
                      ++ [Line action args' line_state])%list, [text])
         | Raise e => Raise e
         end.
Proof.
  intros H. destruct (map_line_lowered action args) as (o & Ho).
  exists o. split; [exact Ho|].
  destruct (block_ends_from_depth ls [Line action args line_state] n ctx H)
    as (calls & ctx' & Hl & E).
  rewrite E. clear E.
  unfold map_lines, map_statement, bind.
  rewrite tracking_unfold. unfold after_dedent. rewrite !Ho.
  destruct ctx' as [l b]. cbn in Hl. subst l.
  destruct (_ && _); unfold emit;
    destruct o as [[[a t] [|]]|e]; reflexivity.
Qed.

(** C6.  The depth is non-negative after every call on the tracker and at
    the end of every generation pass.  dedent lowers a positive depth by
    one; at depth zero it returns normally and leaves the tracker as it
    was; a BLOCK_END never raises; and whether generation raises, and
    which error, does not depend on the state of the tracker.  So input
    with more dedents than open blocks does not fail for that: once any
    statements that lower have been followed by at least as many
    terminators as the depth they left, the depth is zero and the next
    Line, a continuation keyword included, is emitted with no
    indentation, after the lines of the statements before. *)
Theorem depth_saturates_at_zero :
  (forall program, depth_ok (map_program_run program))
  /\ (forall stmts ctx,
        (0 <= level ctx)%Z -> depth_ok (map_lines stmts ctx))
  /\ (forall ctx,
        level ctx = 0%Z ->
        Ctx.dedent ctx = ([CallDedent 0], ctx, Return tt))
  /\ (forall ctx,
        (0 < level ctx)%Z ->
        Ctx.dedent ctx
        = ([CallDedent (level ctx - 1)],
           mkCtx (level ctx - 1) (last_was_block_end ctx), Return tt))
  /\ (forall ls ctx,
        outcome_of (map_statement (BLOCK_END ls) ctx)
        = Return (BLOCK_END ls, []))
  /\ (forall fls c1 c2,
        same_fate same_tree (outcome_of (map_flows fls c1))
                            (outcome_of (map_flows fls c2)))
  /\ (forall n ls action args line_state ctx,
        (0 <= level ctx <= Z.of_nat n)%Z ->
        exists o : Lowered,
          (forall c, map_line action args c = emit o c)
          /\ outcome_of
               (map_lines (repeat (BLOCK_END ls) n
                           ++ [Line action args line_state])%list ctx)
             = match o with
               | Return (args', text, _) =>
                   Return ((repeat (BLOCK_END ls) n
                            ++ [Line action args' line_state])%list,
                           [text])
               | Raise e => Raise e
               end)
  /\ (forall before before' lines n ls action args line_state ctx,
        (0 <= level ctx)%Z ->
        outcome_of (map_lines before ctx) = Return (before', lines) ->
        (level (ctx_of (map_lines before ctx)) <= Z.of_nat n)%Z ->
        exists o : Lowered,
          (forall c, map_line action args c = emit o c)
          /\ outcome_of
               (map_lines (before ++ repeat (BLOCK_END ls) n
                           ++ [Line action args line_state])%list ctx)
             = match o with
               | Return (args', text, _) =>
                   Return ((before' ++ repeat (BLOCK_END ls) n
                            ++ [Line action args' line_state])%list,
                           (lines ++ [text])%list)
               | Raise e => Raise e
               end).
Proof.
  destruct depth_invariants as (H1 & H2 & H3 & H4 & H5 & _).
  split; [exact H1|]. split; [exact H2|]. split; [exact H3|].
  split; [exact dedent_above_zero|]. split; [exact H4|].
  split; [exact H5|]. split.
  - intros n ls action args line_state ctx H.
    now apply line_after_terminators.
  - intros before before' lines n ls action args line_state ctx H0 Hb Hn.
    pose proof (H2 before ctx H0) as [Hge _].
    rewrite map_lines_app. unfold then_run.
    destruct (map_lines before ctx) as [[c1 cx1] [[b1 l1]|e1]] eqn:Eb;
      [|discriminate].
    cbn in Hb, Hn, Hge. injection Hb as -> ->.
    destruct (line_after_terminators n ls action args line_state cx1)
      as (o & Ho & E); [lia|].
    exists o. split; [exact Ho|].
    destruct (map_lines (repeat (BLOCK_END ls) n
                         ++ [Line action args line_state])%list cx1)
      as [[c2 cx2] o2].
    cbn in E. subst o2.
    destruct o as [[[a t] b]|e]; reflexivity.
Qed.

End TrackerRuns.

Lemma continuation_after_arrow_makes_no_dedent_witness :
  dedent_calls
    (Mapper.calls_of
       (@Mapper.map_statement Reference.builtins (Line "ELSE" [] "~")
          (Mapper.ctx_of
             (@Mapper.map_lines Reference.builtins
                [BLOCK_END "~"; Arrow "A" "B" "->" "~"]
                (Mapper.mkCtx 2 false))))) = O
  /\ dedent_calls
       (Mapper.calls_of
          (@Mapper.map_statement Reference.builtins (Line "ELSE" [] "~")
             (Mapper.ctx_of
                (@Mapper.map_lines Reference.builtins
                   [BLOCK_END "~"; Block "f" [] "~"]
                   (Mapper.mkCtx 2 false))))) = 1%nat.
Proof.
  pose proof (@continuation_after_arrow_makes_no_dedent Reference.builtins
                "ELSE" [] "~" (Mapper.mkCtx 2 false) eq_refl)
    as (Harrow & Hblock & _).
  split; [apply Harrow | apply Hblock].
Defined.

Lemma depth_saturates_at_zero_witness :
  Mapper.outcome_of
    (@Mapper.map_lines Reference.builtins
       ([Line "IF" ["x"] "~"; Line "PASS" [] "~"]
        ++ repeat (BLOCK_END "~") 3 ++ [Line "PRINT" ["y"] "~"])%list
       Mapper.new_context)
  = Mapper.Return
      (([Line "IF" ["x"] "~"; Line "PASS" [] "~"]
        ++ repeat (BLOCK_END "~") 3 ++ [Line "PRINT" ["y"] "~"])%list,
       ["if x:"; "    pass"; "print(y)"])
  /\ Mapper.Ctx.dedent (Mapper.mkCtx 2 true)
     = ([Mapper.CallDedent 1], Mapper.mkCtx 1 true, Mapper.Return tt).
Proof.
  pose proof (@depth_saturates_at_zero Reference.builtins)
    as (_ & _ & _ & Hdown & _ & _ & _ & Hrun).
  split.
  - destruct (Hrun [Line "IF" ["x"] "~"; Line "PASS" [] "~"]
                [Line "IF" ["x"] "~"; Line "PASS" [] "~"]
                ["if x:"; "    pass"] 3%nat "~" "PRINT" ["y"] "~"
                Mapper.new_context)
      as (o & Ho & E).
    + cbn. lia.
    + reflexivity.
    + cbn. lia.
    + rewrite E. specialize (Ho Mapper.new_context).
      destruct o as [[[a t] b]|e]; [|discriminate Ho].
      destruct b; [discriminate Ho|].
      injection Ho as <- <-. reflexivity.
  - exact (Hdown (Mapper.mkCtx 2 true) ltac:(cbn; lia)).
Defined.

(** The same on a whole run: an ELSE after BLOCK_END and an Arrow is
    emitted one level deeper than it is when a terminator stands between
    the Arrow and the ELSE. *)
Example else_after_arrow_scenario :
  Mapper.outcome_of
    (@Mapper.map_lines Reference.builtins
       [Line "DEF" ["f"] "~"; Line "IF" ["x"] "~"; Line "PASS" [] "~";
        BLOCK_END "~"; Arrow "A" "B" "->" "~";
        Line "ELSE" [] "~"; Line "PASS" [] "~"]
       Mapper.new_context)
  = Mapper.Return
      ([Line "DEF" ["f"] "~"; Line "IF" ["x"] "~"; Line "PASS" [] "~";
        BLOCK_END "~"; Arrow "A" "B" "->" "~";
        Line "ELSE" [] "~"; Line "PASS" [] "~"],
       ["def f():"; "    if x:"; "        pass"; "    else:";
        "        pass"])
  /\ Mapper.outcome_of
       (@Mapper.map_lines Reference.builtins
          [Line "DEF" ["f"] "~"; Line "IF" ["x"] "~"; Line "PASS" [] "~";
           BLOCK_END "~"; Arrow "A" "B" "->" "~"; BLOCK_END "~";
           Line "ELSE" [] "~"; Line "PASS" [] "~"]
          Mapper.new_context)
     = Mapper.Return
         ([Line "DEF" ["f"] "~"; Line "IF" ["x"] "~"; Line "PASS" [] "~";
           BLOCK_END "~"; Arrow "A" "B" "->" "~"; BLOCK_END "~";
           Line "ELSE" [] "~"; Line "PASS" [] "~"],
          ["def f():"; "    if x:"; "        pass"; "else:"; "    pass"]).
Proof. split; reflexivity. Qed.
